(** * update_strongs_in_verses.py: the merge of Strong's definitions into verse tokens

    A shallow embedding of [update_strong_definitions], of the script around
    it ([load_json_file], [save_json_file], [main]), and the properties of
    their results.

    The two documents come out of [json.load], which builds a fresh tree
    for every call: no dict or list is shared inside a document or between
    the two.  The in-place assignment [token['strong_def'] = new_def] is
    therefore modelled by rebuilding the verse collection around the updated
    token; every other object keeps its place.

    JSON numbers are embedded by their integer fragment ([JInt]); floating
    point values are outside this development.

    A [str] is embedded as the bytes of its UTF-8 encoding; a lone surrogate,
    which [json.load] accepts from an escape such as ["\ud800"], as the
    three bytes of its generalised encoding (ED A0..BF 80..BF).  Equality,
    the substring test and the order by code points are then those of the
    bytes. *)

From stdpp Require Import gmap strings list sorting.
From Stdlib Require Import ZArith.

(** ** Data model *)

(** What [json.load] returns: None, bool, int, str, list, dict.  A dict keeps
    its insertion order, hence the association list. *)
#[local] Set Warnings "-register-all".
Inductive json : Type :=
  | JNull
  | JBool (b : bool)
  | JInt (n : Z)
  | JStr (s : string)
  | JList (items : list json)
  | JDict (entries : list (string * json)).

(** [d.get(k)] and [k in d] on a dict: the entry of key [k], if any. *)
Fixpoint dict_get (k : string) (d : list (string * json)) : option json :=
  match d with
  | [] => None
  | (k', v) :: rest => if String.eqb k k' then Some v else dict_get k rest
  end.

(** [d[k] = v]: an existing key keeps its position, a new key goes last. *)
Fixpoint dict_set (k : string) (v : json) (d : list (string * json))
  : list (string * json) :=
  match d with
  | [] => [(k, v)]
  | (k', v') :: rest =>
      if String.eqb k k' then (k, v) :: rest else (k', v') :: dict_set k v rest
  end.

(** Python truthiness, as used by [if not strongs_num]. *)
Definition truthy (v : json) : bool :=
  match v with
  | JNull => false
  | JBool b => b
  | JInt n => negb (n =? 0)%Z
  | JStr s => negb (String.eqb s "")
  | JList items => match items with [] => false | _ :: _ => true end
  | JDict entries => match entries with [] => false | _ :: _ => true end
  end.

(** The exceptions the merge can raise on a document of the wrong shape. *)
Inductive exn : Type := TypeError | AttributeError.

(** Hashable values as a dict or a set sees them: [True] and [1] are the
    same key, [False] and [0] as well; lists and dicts are unhashable. *)
Inductive key : Type :=
  | KNone
  | KInt (n : Z)
  | KStr (s : string).

Definition hash_key (v : json) : exn + key :=
  match v with
  | JNull => inr KNone
  | JBool b => inr (KInt (if b then 1 else 0))
  | JInt n => inr (KInt n)
  | JStr s => inr (KStr s)
  | JList _ | JDict _ => inl TypeError
  end.

Global Instance key_eq_dec : EqDecision key.
Proof. solve_decision. Defined.

Definition key_to_sum (k : key) : unit + (Z + string) :=
  match k with
  | KNone => inl tt
  | KInt n => inr (inl n)
  | KStr s => inr (inr s)
  end.

Definition key_of_sum (x : unit + (Z + string)) : key :=
  match x with
  | inl _ => KNone
  | inr (inl n) => KInt n
  | inr (inr s) => KStr s
  end.

Global Instance key_countable : Countable key.
Proof.
  apply (inj_countable' key_to_sum key_of_sum).
  intros []; reflexivity.
Defined.

(** The definitions map is a JSON object from identifiers to definition
    strings: every key of it is a [str], so only a [str] can be found. *)
Definition defs_get (k : key) (defs : gmap string string) : option string :=
  match k with
  | KStr s => defs !! s
  | KNone | KInt _ => None
  end.

(** [old_def != new_def] where [new_def] is a [str]: a value of another type
    is never equal to a string. *)
Definition py_ne (old_def : json) (new_def : string) : bool :=
  match old_def with
  | JStr s => negb (String.eqb s new_def)
  | _ => true
  end.

(** ** The state of a run

    The definitions map the function was given, and its three locals. *)
Record store : Type := Store {
  strongs_definitions : gmap string string;
  updated_count : nat;
  not_found_count : nat;
  missing_strongs : gset key
}.

Definition initial_store (defs : gmap string string) : store :=
  Store defs 0 0 ∅.

(** A step reads and writes the store, and either raises or returns; the
    store is there in both cases, as the objects are after a Python
    exception. *)
Definition run (A : Type) : Type := store → (exn + A) * store.

Definition ret {A} (a : A) : run A := λ st, (inr a, st).
Definition raise {A} (e : exn) : run A := λ st, (inl e, st).
Definition bind {A B} (m : run A) (f : A → run B) : run B :=
  λ st, match m st with
        | (inl e, st') => (inl e, st')
        | (inr a, st') => f a st'
        end.
Definition lift {A} (r : exn + A) : run A :=
  λ st, match r with inl e => (inl e, st) | inr a => (inr a, st) end.

Notation "x <- m ;; k" := (bind m (λ x, k))
  (at level 100, m at next level, right associativity).

Definition lookup_definition (k : key) : run (option string) :=
  λ st, (inr (defs_get k (strongs_definitions st)), st).

Definition count_updated : run unit :=
  λ st, (inr tt, Store (strongs_definitions st) (S (updated_count st))
                        (not_found_count st) (missing_strongs st)).

Definition count_not_found (k : key) : run unit :=
  λ st, (inr tt, Store (strongs_definitions st) (updated_count st)
                        (S (not_found_count st)) ({[ k ]} ∪ missing_strongs st)).

(** A [for] loop over a list whose body may update the element it visits:
    the elements are visited in order, and the first exception ends the
    loop. *)
Fixpoint for_each {A} (body : A → run A) (xs : list A) : run (list A) :=
  match xs with
  | [] => ret []
  | x :: rest =>
      x' <- body x ;;
      rest' <- for_each body rest ;;
      ret (x' :: rest')
  end.

(** ** The merge *)

(** [token.get('strongs')]: None when the key is absent. *)
Definition get_strongs (fields : list (string * json)) : json :=
  default JNull (dict_get "strongs" fields).

(** [token.get('strong_def', '')]. *)
Definition get_strong_def (fields : list (string * json)) : json :=
  default (JStr "") (dict_get "strong_def" fields).

(** The body of the inner loop, lines 44-56. *)
Definition merge_token (token : json) : run json :=
  match token with
  | JDict fields =>
      let strongs_num := get_strongs fields in
      if negb (truthy strongs_num) then ret token
      else
        k <- lift (hash_key strongs_num) ;;
        found <- lookup_definition k ;;
        match found with
        | Some new_def =>
            let old_def := get_strong_def fields in
            if py_ne old_def new_def
            then _ <- count_updated ;;
                 ret (JDict (dict_set "strong_def" (JStr new_def) fields))
            else ret token
        | None =>
            _ <- count_not_found k ;;
            ret token
        end
  | JNull | JBool _ | JInt _ | JStr _ | JList _ => raise AttributeError
  end.

(** [for token in tokens], over a list. *)
Definition merge_tokens (tokens : list json) : run (list json) :=
  for_each merge_token tokens.

(** [for token in verse_data['tokens']]: a list is walked; a str yields its
    characters and a dict its keys, none of which has a [get]; the other
    values are not iterable. *)
Definition merge_token_field (tokens : json) : run json :=
  match tokens with
  | JList items => items' <- merge_tokens items ;; ret (JList items')
  | JStr s => if String.eqb s "" then ret tokens else raise AttributeError
  | JDict entries =>
      match entries with [] => ret tokens | _ :: _ => raise AttributeError end
  | JNull | JBool _ | JInt _ => raise TypeError
  end.

(** [sub in s] on strings. *)
Fixpoint str_contains (sub s : string) : bool :=
  String.prefix sub s
  || match s with
     | EmptyString => false
     | String _ rest => str_contains sub rest
     end.

(** [x in items] on a list, for a str [x]. *)
Definition list_contains_str (x : string) (items : list json) : bool :=
  existsb (λ item, match item with JStr s => String.eqb x s | _ => false end)
          items.

(** The body of the outer loop, lines 40-56. *)
Definition merge_verse (verse_data : json) : run json :=
  match verse_data with
  | JDict fields =>
      match dict_get "tokens" fields with
      | None => ret verse_data
      | Some tokens =>
          tokens' <- merge_token_field tokens ;;
          ret (JDict (dict_set "tokens" tokens' fields))
      end
  | JStr s =>
      if str_contains "tokens" s then raise TypeError else ret verse_data
  | JList items =>
      if list_contains_str "tokens" items then raise TypeError
      else ret verse_data
  | JNull | JBool _ | JInt _ => raise TypeError
  end.

(** One turn of the outer loop on an item [(verse_ref, verse_data)]. *)
Definition merge_item (item : string * json) : run (string * json) :=
  verse_data' <- merge_verse item.2 ;;
  ret (item.1, verse_data').

(** [for verse_ref, verse_data in verses.items()]. *)
Definition merge_verses (verses : list (string * json))
  : run (list (string * json)) :=
  for_each merge_item verses.

(** The function, lines 28-58: the verses as they are after the loop, and
    the three aggregates. *)
Definition update_strong_definitions
    (verses : list (string * json)) (defs : gmap string string)
  : exn + (list (string * json) * nat * nat * gset key) :=
  match merge_verses verses (initial_store defs) with
  | (inl e, _) => inl e
  | (inr verses', st) =>
      inr (verses', updated_count st, not_found_count st, missing_strongs st)
  end.

(** ** Reading a verse collection *)

(** The tokens the inner loop walks in a verse record. *)
Definition tokens_of (verse_data : json) : list json :=
  match verse_data with
  | JDict fields =>
      match dict_get "tokens" fields with
      | Some (JList items) => items
      | _ => []
      end
  | _ => []
  end.

(** The [j]-th token of the [i]-th verse record. *)
Definition token_at (verses : list (string * json)) (i j : nat) : option json :=
  match verses !! i with
  | Some (_, verse_data) => tokens_of verse_data !! j
  | None => None
  end.

(** The tokens of the [i]-th verse record. *)
Definition tokens_of_at (verses : list (string * json)) (i : nat) : list json :=
  match verses !! i with
  | Some (_, verse_data) => tokens_of verse_data
  | None => []
  end.

(** Every token of the collection, in the order of the two loops. *)
Definition all_tokens (verses : list (string * json)) : list json :=
  concat (map (λ entry, tokens_of entry.2) verses).

(** A token whose [strongs] is truthy and is no key of the definitions map. *)
Definition strongs_absent (defs : gmap string string) (token : json) : bool :=
  match token with
  | JDict fields =>
      truthy (get_strongs fields)
      && match hash_key (get_strongs fields) with
         | inr k => match defs_get k defs with None => true | Some _ => false end
         | inl _ => false
         end
  | _ => false
  end.

(** A token whose [strongs] is truthy and is a key of the definitions map,
    with a definition that differs from the token's [strong_def]. *)
Definition needs_update (defs : gmap string string) (token : json) : bool :=
  match token with
  | JDict fields =>
      truthy (get_strongs fields)
      && match hash_key (get_strongs fields) with
         | inr k =>
             match defs_get k defs with
             | Some new_def => py_ne (get_strong_def fields) new_def
             | None => false
             end
         | inl _ => false
         end
  | _ => false
  end.

(** ** The documents the merge accepts *)

(** A token the inner loop does not raise on: a dict whose [strongs], when
    truthy, is hashable. *)
Definition token_ok (token : json) : bool :=
  match token with
  | JDict fields =>
      if truthy (get_strongs fields)
      then match hash_key (get_strongs fields) with
           | inr _ => true
           | inl _ => false
           end
      else true
  | _ => false
  end.

(** A verse record the outer loop does not raise on. *)
Definition verse_ok (verse_data : json) : bool :=
  match verse_data with
  | JDict fields =>
      match dict_get "tokens" fields with
      | None => true
      | Some (JList items) => forallb token_ok items
      | Some (JStr s) => String.eqb s ""
      | Some (JDict entries) =>
          match entries with [] => true | _ :: _ => false end
      | Some _ => false
      end
  | JStr s => negb (str_contains "tokens" s)
  | JList items => negb (list_contains_str "tokens" items)
  | JNull | JBool _ | JInt _ => false
  end.

Definition verses_ok (verses : list (string * json)) : bool :=
  forallb (λ item, verse_ok item.2) verses.

(** ** The example of the specification *)

Definition example_definitions : gmap string string :=
  {[ "G26" := "love"; "G5547" := "Christ" ]}.

Definition example_verses : list (string * json) :=
  [ ("John 3:16",
     JDict [ ("tokens",
              JList [ JDict [ ("strongs", JStr "G26"); ("strong_def", JStr "") ];
                      JDict [ ("strongs", JStr "G9999") ] ]) ]) ].

Definition example_verses_after : list (string * json) :=
  [ ("John 3:16",
     JDict [ ("tokens",
              JList [ JDict [ ("strongs", JStr "G26"); ("strong_def", JStr "love") ];
                      JDict [ ("strongs", JStr "G9999") ] ]) ]) ].

(** ** The store as an accumulator *)

(** [st ⊕ d]: the store [st] after the counts and the missing keys of [d]
    were added to it. *)
Definition store_add (st d : store) : store :=
  Store (strongs_definitions st)
        (updated_count st + updated_count d)
        (not_found_count st + not_found_count d)
        (missing_strongs d ∪ missing_strongs st).

Infix "⊕" := store_add (at level 50, left associativity).

(** ** What a step adds to the store *)

(** A step is local when it only adds to the store: what it returns depends
    on the definitions alone, and what it adds does not depend on what the
    store had counted before. *)
Definition local {A} (m : run A) : Prop :=
  ∀ st, m st = ((m (initial_store (strongs_definitions st))).1,
                st ⊕ (m (initial_store (strongs_definitions st))).2).

(** ** What a returning run did *)

(** The four ways through the body of the inner loop, with the new token and
    what the step counted. *)
Inductive token_outcome (defs : gmap string string)
    (fields : list (string * json)) : json → store → Prop :=
  | skipped :
      truthy (get_strongs fields) = false →
      token_outcome defs fields (JDict fields) (initial_store defs)
  | up_to_date k new_def :
      truthy (get_strongs fields) = true →
      hash_key (get_strongs fields) = inr k →
      defs_get k defs = Some new_def →
      py_ne (get_strong_def fields) new_def = false →
      token_outcome defs fields (JDict fields) (initial_store defs)
  | updated k new_def :
      truthy (get_strongs fields) = true →
      hash_key (get_strongs fields) = inr k →
      defs_get k defs = Some new_def →
      py_ne (get_strong_def fields) new_def = true →
      token_outcome defs fields
        (JDict (dict_set "strong_def" (JStr new_def) fields))
        (Store defs 1 0 ∅)
  | not_found k :
      truthy (get_strongs fields) = true →
      hash_key (get_strongs fields) = inr k →
      defs_get k defs = None →
      token_outcome defs fields (JDict fields) (Store defs 0 1 {[ k ]}).

(** [each body defs xs xs' ds]: the loop of [body] over [xs] returns, leaves
    [xs'] and counts [ds], every turn being taken on its own from the empty
    counts. *)
Inductive each {A} (body : A → run A) (defs : gmap string string)
  : list A → list A → store → Prop :=
  | each_nil : each body defs [] [] (initial_store defs)
  | each_cons x x' d xs xs' ds :
      body x (initial_store defs) = (inr x', d) →
      each body defs xs xs' ds →
      each body defs (x :: xs) (x' :: xs') (d ⊕ ds).

Inductive verse_outcome (defs : gmap string string)
  : json → json → store → Prop :=
  | untouched verse_data :
      tokens_of verse_data = [] →
      verse_outcome defs verse_data verse_data (initial_store defs)
  | walked fields items items' d :
      dict_get "tokens" fields = Some (JList items) →
      each merge_token defs items items' d →
      verse_outcome defs (JDict fields)
        (JDict (dict_set "tokens" (JList items') fields)) d.

(** The counts of a second run after a run that counted [d]: no update, the
    same keys not found. *)
Definition second_run (d : store) : store :=
  Store (strongs_definitions d) 0 (not_found_count d) (missing_strongs d).

(** The missing set never holds more keys than were counted as not found. *)
Definition missing_within_count (d : store) : Prop :=
  size (missing_strongs d) ≤ not_found_count d.

(** ** The frame of the merge *)

(** Two tokens that agree on every field but [strong_def]. *)
Inductive token_frame : json → json → Prop :=
  | token_frame_fields fields fields' :
      (∀ k, k ≠ "strong_def" → dict_get k fields' = dict_get k fields) →
      token_frame (JDict fields) (JDict fields').

(** Two verse records that are the same, or differ only by the tokens under
    ["tokens"], which keep their number and order and agree on every field
    but [strong_def]. *)
Inductive verse_frame : json → json → Prop :=
  | verse_frame_same verse_data : verse_frame verse_data verse_data
  | verse_frame_tokens fields items items' :
      dict_get "tokens" fields = Some (JList items) →
      Forall2 token_frame items items' →
      verse_frame (JDict fields)
                  (JDict (dict_set "tokens" (JList items') fields)).

Definition token_frame_or_same (token token' : json) : Prop :=
  token' = token ∨ token_frame token token'.

Definition item_frame (item item' : string * json) : Prop :=
  item'.1 = item.1 ∧ verse_frame item.2 item'.2.

(** ** The order of the loops *)

(** A verse record with its tokens in another order. *)
Inductive reordered_verse : json → json → Prop :=
  | reordered_same verse_data : reordered_verse verse_data verse_data
  | reordered_tokens fields items items2 :
      dict_get "tokens" fields = Some (JList items) →
      items ≡ₚ items2 →
      reordered_verse (JDict fields)
                      (JDict (dict_set "tokens" (JList items2) fields)).

Definition reordered_item (item item2 : string * json) : Prop :=
  item2.1 = item.1 ∧ reordered_verse item.2 item2.2.

(** A collection with its verses in another order, and the tokens of each
    verse in another order. *)
Definition reordered (verses verses2 : list (string * json)) : Prop :=
  ∃ mid, Forall2 reordered_item verses mid ∧ mid ≡ₚ verses2.

(** ** Further examples *)

Definition falsy_verses : list (string * json) :=
  [ ("Gen 1:1",
     JDict [ ("tokens",
              JList [ JDict [ ("text", JStr "In"); ("strongs", JNull) ];
                      JDict [ ("strongs", JStr ""); ("strong_def", JStr "x") ];
                      JDict [ ("text", JStr "the") ] ]) ]) ].

Definition empty_definition : gmap string string := {[ "G1" := "" ]}.

Definition bare_verses : list (string * json) :=
  [ ("Gen 1:1", JDict [ ("tokens", JList [ JDict [ ("strongs", JStr "G1") ] ]) ]) ].

Definition repeated_verses : list (string * json) :=
  [ ("John 1:1",
     JDict [ ("tokens", JList [ JDict [ ("strongs", JStr "G9999") ];
                                JDict [ ("strongs", JStr "G26") ] ]) ]);
    ("John 1:2",
     JDict [ ("tokens", JList [ JDict [ ("strongs", JStr "G9999");
                                        ("strong_def", JStr "old") ] ]) ]) ].

Definition repeated_verses_after : list (string * json) :=
  [ ("John 1:1",
     JDict [ ("tokens", JList [ JDict [ ("strongs", JStr "G9999") ];
                                JDict [ ("strongs", JStr "G26");
                                        ("strong_def", JStr "love") ] ]) ]);
    ("John 1:2",
     JDict [ ("tokens", JList [ JDict [ ("strongs", JStr "G9999");
                                        ("strong_def", JStr "old") ] ]) ]) ].

Definition repeated_verses_reordered : list (string * json) :=
  [ ("John 1:2",
     JDict [ ("tokens", JList [ JDict [ ("strongs", JStr "G9999");
                                        ("strong_def", JStr "old") ] ]) ]);
    ("John 1:1",
     JDict [ ("tokens", JList [ JDict [ ("strongs", JStr "G26") ];
                                JDict [ ("strongs", JStr "G9999") ] ]) ]) ].

(** ** Further readings of a run *)

(** The key the inner loop records for a token, when it records one: the
    hashed [strongs] of a token whose [strongs] is truthy and is no key of
    the definitions map. *)
Definition missing_key (defs : gmap string string) (token : json)
  : option key :=
  match token with
  | JDict fields =>
      if truthy (get_strongs fields)
      then match hash_key (get_strongs fields) with
           | inr k =>
               match defs_get k defs with None => Some k | Some _ => None end
           | inl _ => None
           end
      else None
  | _ => None
  end.

(** The counts of a store, under another definitions map. *)
Definition with_definitions (defs : gmap string string) (d : store) : store :=
  Store defs (updated_count d) (not_found_count d) (missing_strongs d).


(** ** The script: files, output and [main]

    A file is looked at through [json.load] and [json.dump] only: it is
    absent, or holds text that is no JSON, or holds a document, and
    [json.load] gives back the document [json.dump] wrote.  The definitions
    file holds an object of strings and the verses file an object, as
    [update_strong_definitions] takes them. *)
Inductive file (A : Type) : Type :=
  | Absent
  | Invalid
  | Holds (document : A).
Arguments Absent {A}.
Arguments Invalid {A}.
Arguments Holds {A} document.

(** What the disk does when [verses.json] is opened for writing and written:
    it takes the text, or refuses to open the file, or fails once the file
    is open. *)
Inductive disk : Type :=
  | Writes
  | Refuses
  | Fails_midway.

(** The two files next to the script. *)
Record files : Type := Files {
  strongs_cleaned_json : file (gmap string string);
  verses_json : file (list (string * json));
  verses_disk : disk
}.

(** What ends a run of the script early. *)
Inductive error : Type :=
  | FileNotFoundError
  | JSONDecodeError
  | OSError
  | UnicodeEncodeError
  | Raised (e : exn).

(** [load_json_file], lines 16-19. *)
Definition load_json_file {A} (f : file A) : error + A :=
  match f with
  | Absent => inl FileNotFoundError
  | Invalid => inl JSONDecodeError
  | Holds document => inr document
  end.

(** A string the UTF-8 codec of the output file can encode: no byte ED is
    followed by a byte from A0 up, that is, no code point is a surrogate. *)
Fixpoint no_lone_surrogate (s : string) : bool :=
  match s with
  | EmptyString => true
  | String a rest =>
      match rest with
      | EmptyString => true
      | String b _ =>
          negb ((Ascii.N_of_ascii a =? 237)%N && (160 <=? Ascii.N_of_ascii b)%N)
          && no_lone_surrogate rest
      end
  end.

(** A value all of whose strings, keys included, can be encoded:
    [ensure_ascii=False] writes them as they are. *)
Fixpoint encodable (v : json) : bool :=
  match v with
  | JNull | JBool _ | JInt _ => true
  | JStr s => no_lone_surrogate s
  | JList items => forallb encodable items
  | JDict entries =>
      forallb (λ entry, no_lone_surrogate entry.1 && encodable entry.2) entries
  end.

Definition encodable_doc (data : list (string * json)) : bool :=
  encodable (JDict data).

(** [save_json_file], lines 22-25: the file after the call, and the error
    raised, if any.  [open(file_path, 'w')] empties the file before
    [json.dump] writes, and what is written before an error is the beginning
    of the text of an object, which is no JSON: a failure after the file is
    open leaves it invalid. *)
Definition save_json_file (d : disk) (f : file (list (string * json)))
    (data : list (string * json))
  : file (list (string * json)) * option error :=
  match d with
  | Refuses => (f, Some OSError)
  | Fails_midway => (Invalid, Some OSError)
  | Writes =>
      if encodable_doc data then (Holds data, None)
      else (Invalid, Some UnicodeEncodeError)
  end.

(** The [print] calls of [main], by what they show. *)
Inductive printed : Type :=
  | Line_loading_definitions
  | Line_loaded_definitions (count : nat)
  | Line_loading_verses
  | Line_loaded_verses (count : nat)
  | Line_updating
  | Line_saving
  | Line_rule
  | Line_summary
  | Line_definitions_updated (count : nat)
  | Line_not_found (count : nat)
  | Line_missing_header (unique : nat)
  | Line_missing_item (k : key)
  | Line_more (count : nat)
  | Line_done.

(** The order [sorted] uses on strings: by code point, position by
    position. *)
Definition str_le (s t : string) : Prop := String.leb s t = true.

Global Instance str_le_dec : RelDecision str_le.
Proof. intros s t. unfold str_le. apply _. Defined.

(** The strings of a list of keys that are all [str] keys. *)
Fixpoint strings_of (keys : list key) : option (list string) :=
  match keys with
  | [] => Some []
  | KStr s :: rest => (s ::.) <$> strings_of rest
  | _ :: _ => None
  end.

(** The numbers of a list of keys that are all numbers. *)
Fixpoint ints_of (keys : list key) : option (list Z) :=
  match keys with
  | [] => Some []
  | KInt n :: rest => (n ::.) <$> ints_of rest
  | _ :: _ => None
  end.

(** [sorted(missing_strongs)]: strings among themselves and numbers among
    themselves are ordered; any other two keys cannot be compared, and two or
    more keys are always compared. *)
Definition sorted (missing_strongs : gset key) : exn + list key :=
  let keys := elements missing_strongs in
  match keys with
  | [] | [_] => inr keys
  | _ :: _ :: _ =>
      match strings_of keys, ints_of keys with
      | Some strs, _ => inr (KStr <$> merge_sort str_le strs)
      | None, Some nums => inr (KInt <$> merge_sort Z.le nums)
      | None, None => inl TypeError
      end
  end.

(** The summary, lines 84-96: what is printed, and the exception if
    [sorted] raises. *)
Definition report (updated_count not_found_count : nat)
    (missing_strongs : gset key) : list printed * option exn :=
  let summary :=
    [ Line_rule; Line_summary;
      Line_definitions_updated updated_count;
      Line_not_found not_found_count ] in
  if decide (missing_strongs = ∅) then (summary ++ [Line_done], None)
  else
    let header := [ Line_missing_header (size missing_strongs) ] in
    match sorted missing_strongs with
    | inl e => (summary ++ header, Some e)
    | inr keys =>
        (summary ++ header
           ++ (Line_missing_item <$> take 20 keys)
           ++ (if decide (20 < size missing_strongs)
               then [ Line_more (size missing_strongs - 20) ]
               else [])
           ++ [Line_done],
         None)
    end.

(** A run of the script: the files after it, what it printed, and the error
    that ended it, if any. *)
Record outcome : Type := Outcome {
  files_after : files;
  stdout : list printed;
  raised : option error
}.

(** [main], lines 61-96. *)
Definition main (fs : files) : outcome :=
  let out1 := [ Line_loading_definitions ] in
  match load_json_file (strongs_cleaned_json fs) with
  | inl e => Outcome fs out1 (Some e)
  | inr strongs_definitions =>
      let out2 :=
        out1 ++ [ Line_loaded_definitions (size strongs_definitions);
                  Line_loading_verses ] in
      match load_json_file (verses_json fs) with
      | inl e => Outcome fs out2 (Some e)
      | inr verses =>
          let out3 :=
            out2 ++ [ Line_loaded_verses (length verses); Line_updating ] in
          match update_strong_definitions verses strongs_definitions with
          | inl e => Outcome fs out3 (Some (Raised e))
          | inr (updated_verses, updated_count, not_found_count,
                 missing_strongs) =>
              let out4 := out3 ++ [ Line_saving ] in
              match save_json_file (verses_disk fs) (verses_json fs)
                                   updated_verses with
              | (f, Some e) =>
                  Outcome (Files (strongs_cleaned_json fs) f (verses_disk fs))
                          out4 (Some e)
              | (f, None) =>
                  let (lines, e) :=
                    report updated_count not_found_count missing_strongs in
                  Outcome (Files (strongs_cleaned_json fs) f (verses_disk fs))
                          (out4 ++ lines) (Raised <$> e)
              end
          end
      end
  end.

(** The keys the summary lists. *)
Definition listed_keys (out : list printed) : list key :=
  omap (λ line, match line with Line_missing_item k => Some k | _ => None end)
       out.

(** Two keys [sorted] can compare, and the order it puts them in. *)
Definition key_le (a b : key) : Prop :=
  match a, b with
  | KStr s, KStr t => str_le s t
  | KInt x, KInt y => (x ≤ y)%Z
  | _, _ => False
  end.

Definition comparable (a b : key) : Prop :=
  match a, b with
  | KStr _, KStr _ | KInt _, KInt _ => True
  | _, _ => False
  end.

(** The inputs on which the script gets as far as saving. *)
Definition ready (fs : files) : bool :=
  match strongs_cleaned_json fs, verses_json fs with
  | Holds _, Holds verses => verses_ok verses
  | _, _ => false
  end.

(** ** Examples for the further properties *)

Definition plain_verses : list (string * json) :=
  [ ("Gen 1:1", JDict [ ("text", JStr "In the beginning") ]);
    ("Gen 1:2", JDict [ ("tokens", JList [ JDict [ ("strongs", JStr "G26") ] ]) ]) ].

Definition plain_verses_after : list (string * json) :=
  [ ("Gen 1:1", JDict [ ("text", JStr "In the beginning") ]);
    ("Gen 1:2",
     JDict [ ("tokens", JList [ JDict [ ("strongs", JStr "G26");
                                        ("strong_def", JStr "love") ] ]) ]) ].

Definition smaller_definitions : gmap string string := {[ "G26" := "love" ]}.

Definition three_missing : gset key :=
  {[ KStr "H7225" ]} ∪ {[ KStr "G9999" ]} ∪ {[ KStr "G26" ]}.

Definition files_without_verses : files :=
  Files (Holds example_definitions) Absent Writes.

Definition example_files : files :=
  Files (Holds example_definitions) (Holds example_verses) Writes.

(** A verses document with a lone surrogate (U+D800), as [json.load] reads
    it from the text [{"b": {"note": "\ud800"}}]. *)
Definition surrogate_verses : list (string * json) :=
  [ ("b",
     JDict [ ("note",
              JStr (String (Ascii.ascii_of_N 237)
                      (String (Ascii.ascii_of_N 160)
                         (String (Ascii.ascii_of_N 128) EmptyString)))) ]) ].

Definition surrogate_files : files :=
  Files (Holds example_definitions) (Holds surrogate_verses) Writes.

(** * Proofs *)

#[local] Set Warnings "-clear-no-such-hyp".

Lemma store_eq (a b : store) :
  strongs_definitions a = strongs_definitions b →
  updated_count a = updated_count b →
  not_found_count a = not_found_count b →
  missing_strongs a = missing_strongs b →
  a = b.
Proof. destruct a, b; simpl; congruence. Qed.

Lemma store_add_initial st defs : st ⊕ initial_store defs = st.
Proof.
  apply store_eq; simpl; [done | lia | lia | set_solver].
Qed.

Lemma store_add_assoc a b c : a ⊕ b ⊕ c = a ⊕ (b ⊕ c).
Proof.
  apply store_eq; simpl; [done | lia | lia | set_solver].
Qed.

Lemma local_definitions {A} (m : run A) st :
  local m → strongs_definitions (m st).2 = strongs_definitions st.
Proof. intros Hm. rewrite (Hm st). reflexivity. Qed.

Lemma local_ret {A} (a : A) : local (ret a).
Proof. intros st. unfold ret. simpl. by rewrite store_add_initial. Qed.

Lemma local_raise {A} e : local (@raise A e).
Proof. intros st. unfold raise. simpl. by rewrite store_add_initial. Qed.

Lemma local_lift {A} (r : exn + A) : local (lift r).
Proof.
  intros st. unfold lift. destruct r; simpl; by rewrite store_add_initial.
Qed.

Lemma local_lookup_definition k : local (lookup_definition k).
Proof.
  intros st. unfold lookup_definition. simpl. by rewrite store_add_initial.
Qed.

Lemma local_count_updated : local count_updated.
Proof.
  intros st. unfold count_updated. simpl. f_equal.
  apply store_eq; simpl; [done | lia | lia | set_solver].
Qed.

Lemma local_count_not_found k : local (count_not_found k).
Proof.
  intros st. unfold count_not_found. simpl. f_equal.
  apply store_eq; simpl; [done | lia | lia | set_solver].
Qed.

Lemma local_bind {A B} (m : run A) (f : A → run B) :
  local m → (∀ a, local (f a)) → local (bind m f).
Proof.
  intros Hm Hf st. unfold bind.
  set (st0 := initial_store (strongs_definitions st)).
  rewrite (Hm st). fold st0.
  destruct (m st0) as [[e | a] d] eqn:Hd; simpl; [done |].
  assert (Hdefs : strongs_definitions d = strongs_definitions st).
  { pose proof (local_definitions m st0 Hm) as H. by rewrite Hd in H. }
  rewrite (Hf a (st ⊕ d)), (Hf a d). simpl. rewrite Hdefs. fold st0.
  by rewrite store_add_assoc.
Qed.

Create HintDb local_db discriminated.
#[local] Hint Resolve local_ret local_raise local_lift local_lookup_definition
  local_count_updated local_count_not_found : local_db.

Lemma local_merge_token token : local (merge_token token).
Proof.
  destruct token; simpl; auto with local_db.
  destruct (negb _); auto with local_db.
  apply local_bind; auto with local_db. intros k.
  apply local_bind; auto with local_db. intros [new_def |].
  - destruct (py_ne _ _); auto with local_db.
    apply local_bind; auto with local_db.
  - apply local_bind; auto with local_db.
Qed.

Lemma local_for_each {A} (body : A → run A) xs :
  (∀ x, local (body x)) → local (for_each body xs).
Proof.
  intros Hbody. induction xs as [| x rest IH]; simpl; auto with local_db.
  apply local_bind; [apply Hbody |]. intros x'.
  apply local_bind; auto with local_db.
Qed.

Lemma local_merge_tokens tokens : local (merge_tokens tokens).
Proof. apply local_for_each, local_merge_token. Qed.

Lemma local_merge_token_field tokens : local (merge_token_field tokens).
Proof.
  destruct tokens as [| | | s | items | entries]; simpl; auto with local_db.
  - destruct (String.eqb _ _); auto with local_db.
  - apply local_bind; [apply local_merge_tokens | auto with local_db].
  - destruct entries; auto with local_db.
Qed.

Lemma local_merge_verse verse_data : local (merge_verse verse_data).
Proof.
  destruct verse_data as [| | | s | items | fields]; simpl; auto with local_db.
  - destruct (str_contains _ _); auto with local_db.
  - destruct (list_contains_str _ _); auto with local_db.
  - destruct (dict_get _ _); auto with local_db.
    apply local_bind; [apply local_merge_token_field | auto with local_db].
Qed.

Lemma local_merge_item item : local (merge_item item).
Proof.
  apply local_bind; [apply local_merge_verse | auto with local_db].
Qed.

Lemma local_merge_verses verses : local (merge_verses verses).
Proof. apply local_for_each, local_merge_item. Qed.

(** ** Dict lemmas *)

Lemma dict_get_set_eq k v d : dict_get k (dict_set k v d) = Some v.
Proof.
  induction d as [| [k' v'] rest IH]; simpl.
  - by rewrite String.eqb_refl.
  - destruct (String.eqb k k') eqn:E; simpl; rewrite ?String.eqb_refl, ?E; done.
Qed.

Lemma dict_get_set_ne k k' v d :
  k ≠ k' → dict_get k' (dict_set k v d) = dict_get k' d.
Proof.
  intros Hne. induction d as [| [k1 v1] rest IH]; simpl.
  - apply not_eq_sym, String.eqb_neq in Hne. by rewrite Hne.
  - destruct (String.eqb k k1) eqn:E; simpl.
    + apply String.eqb_eq in E. subst k1.
      apply not_eq_sym, String.eqb_neq in Hne. by rewrite Hne.
    + by rewrite IH.
Qed.

Lemma dict_set_id k v d : dict_get k d = Some v → dict_set k v d = d.
Proof.
  induction d as [| [k' v'] rest IH]; simpl; [done |].
  destruct (String.eqb k k') eqn:E.
  - apply String.eqb_eq in E. by intros [= ->]; subst.
  - intros H. by rewrite IH.
Qed.

Lemma dict_set_set k v w d : dict_set k v (dict_set k w d) = dict_set k v d.
Proof.
  induction d as [| [k' v'] rest IH]; simpl.
  - by rewrite String.eqb_refl.
  - destruct (String.eqb k k') eqn:E; simpl; rewrite ?String.eqb_refl, ?E, ?IH; done.
Qed.

(** ** What a returning step did *)

Lemma bind_returns {A B} (m : run A) (f : A → run B) st b st' :
  bind m f st = (inr b, st') →
  ∃ a st1, m st = (inr a, st1) ∧ f a st1 = (inr b, st').
Proof.
  unfold bind. destruct (m st) as [[e | a] st1]; [done | eauto].
Qed.

Lemma merge_token_initial defs token token' d :
  merge_token token (initial_store defs) = (inr token', d) →
  ∃ fields, token = JDict fields ∧ token_outcome defs fields token' d.
Proof.
  destruct token as [| | | | | fields]; try discriminate.
  intros H. exists fields. split; [done |]. revert H. simpl.
  destruct (truthy (get_strongs fields)) eqn:Ht; simpl.
  - unfold bind, lift, lookup_definition, count_updated, count_not_found, ret.
    destruct (hash_key (get_strongs fields)) as [e | k] eqn:Hk; [done |].
    simpl. destruct (defs_get k defs) as [new_def |] eqn:Hd.
    + destruct (py_ne (get_strong_def fields) new_def) eqn:Hne.
      * intros [= <- <-]. by eapply updated.
      * intros [= <- <-]. by eapply up_to_date.
    + intros [= <- <-]. rewrite (right_id_L ∅ (∪)). by eapply not_found.
  - intros [= <- <-]. by apply skipped.
Qed.

Lemma merge_token_returns token st token' st' :
  merge_token token st = (inr token', st') →
  ∃ fields d, token = JDict fields
    ∧ token_outcome (strongs_definitions st) fields token' d
    ∧ st' = st ⊕ d.
Proof.
  rewrite (local_merge_token token st).
  destruct (merge_token token (initial_store (strongs_definitions st)))
    as [r d] eqn:H0.
  simpl. intros [= -> <-].
  apply merge_token_initial in H0 as (fields & -> & Ho). eauto.
Qed.

(** The converse: an outcome is what the step returns. *)
Lemma merge_token_outcome defs fields token' d st :
  strongs_definitions st = defs →
  token_outcome defs fields token' d →
  merge_token (JDict fields) st = (inr token', st ⊕ d).
Proof.
  intros <- Ho. rewrite (local_merge_token (JDict fields) st).
  set (st0 := initial_store (strongs_definitions st)).
  assert (merge_token (JDict fields) st0 = (inr token', d)) as ->; [| done].
  subst st0. simpl.
  unfold bind, lift, lookup_definition, count_updated, count_not_found, ret.
  destruct Ho as [Ht | k nd Ht Hk Hd Hne | k nd Ht Hk Hd Hne | k Ht Hk Hd];
    rewrite Ht; simpl; [done | | |];
    rewrite Hk; simpl; rewrite Hd, ?Hne; try done.
  simpl. by rewrite (right_id_L ∅ (∪)).
Qed.

Lemma token_outcome_definitions defs fields token' d :
  token_outcome defs fields token' d → strongs_definitions d = defs.
Proof. by destruct 1. Qed.

Lemma initial_store_add defs d :
  strongs_definitions d = defs → initial_store defs ⊕ d = d.
Proof.
  intros <-. apply store_eq; simpl; [done | done | done | set_solver].
Qed.

Lemma merge_token_outcome_initial defs fields token' d :
  token_outcome defs fields token' d →
  merge_token (JDict fields) (initial_store defs) = (inr token', d).
Proof.
  intros Ho.
  rewrite (merge_token_outcome _ _ _ _ (initial_store defs) eq_refl Ho).
  by rewrite (initial_store_add _ _ (token_outcome_definitions _ _ _ _ Ho)).
Qed.

(** ** Loops of local steps *)

Section for_each_facts.
Context {A : Type} (body : A → run A).
Hypothesis body_local : ∀ x, local (body x).

Lemma body_definitions defs x r d :
  body x (initial_store defs) = (r, d) → strongs_definitions d = defs.
Proof.
  intros H.
  pose proof (local_definitions (body x) (initial_store defs) (body_local x))
    as Hd.
  by rewrite H in Hd.
Qed.

Lemma each_length defs xs xs' ds :
  each body defs xs xs' ds → length xs' = length xs.
Proof. induction 1; simpl; congruence. Qed.

Lemma for_each_at xs st r ds :
  for_each body xs (initial_store (strongs_definitions st)) = (r, ds) →
  for_each body xs st = (r, st ⊕ ds).
Proof.
  intros H. rewrite (local_for_each body xs body_local st). by rewrite H.
Qed.

Lemma each_for_each defs xs xs' ds :
  each body defs xs xs' ds →
  for_each body xs (initial_store defs) = (inr xs', ds).
Proof.
  induction 1 as [| x x' d xs xs' ds Hx Hxs IH]; [done |].
  simpl. unfold bind at 1. rewrite Hx.
  unfold bind. rewrite (for_each_at xs d (inr xs') ds); [done |].
  by rewrite (body_definitions _ _ _ _ Hx).
Qed.

Lemma for_each_each defs xs xs' ds :
  for_each body xs (initial_store defs) = (inr xs', ds) →
  each body defs xs xs' ds.
Proof.
  revert xs' ds. induction xs as [| x rest IH]; intros xs' ds; simpl.
  - intros [= <- <-]. constructor.
  - intros H.
    apply bind_returns in H as (x' & d & Hx & H).
    apply bind_returns in H as (rest' & st2 & Hrest & H).
    injection H as <- <-.
    pose proof (body_definitions _ _ _ _ Hx) as Hd.
    destruct (for_each body rest (initial_store defs)) as [r ds0] eqn:H0.
    rewrite (for_each_at rest d r ds0) in Hrest by (by rewrite Hd).
    injection Hrest as -> <-.
    constructor; [done | by apply IH].
Qed.

(** A loop that returns, from any store. *)
Lemma for_each_returns xs st xs' st' :
  for_each body xs st = (inr xs', st') ↔
  ∃ ds, each body (strongs_definitions st) xs xs' ds ∧ st' = st ⊕ ds.
Proof.
  split.
  - intros H.
    destruct (for_each body xs (initial_store (strongs_definitions st)))
      as [r ds] eqn:H0.
    rewrite (for_each_at xs st r ds H0) in H. injection H as -> <-.
    exists ds. split; [by apply for_each_each | done].
  - intros (ds & He & ->). by apply for_each_at, each_for_each.
Qed.

(** The turn taken on the element of a given position. *)
Lemma each_lookup defs xs xs' ds i x :
  each body defs xs xs' ds → xs !! i = Some x →
  ∃ x' d, xs' !! i = Some x' ∧ body x (initial_store defs) = (inr x', d).
Proof.
  intros H. revert i. induction H as [| y y' d xs xs' ds Hy Hxs IH];
    intros [| i]; simpl; try done.
  - intros [= ->]. eauto.
  - apply IH.
Qed.

(** The order of the turns changes neither what is counted nor what each
    element becomes. *)
Lemma each_Permutation defs xs ys xs' ds :
  each body defs xs xs' ds → xs ≡ₚ ys →
  ∃ ys', each body defs ys ys' ds ∧ xs' ≡ₚ ys'.
Proof.
  intros H Hp. revert xs' ds H.
  induction Hp as [| x xs ys Hp IH | x y xs | xs ys zs _ IH1 _ IH2];
    intros xs' ds H.
  - inversion H; subst. exists []. split; [constructor | done].
  - inversion H as [| ? x' d ? xs1 ds1 Hx Hxs]; subst.
    destruct (IH _ _ Hxs) as (ys' & Hys & Hp').
    exists (x' :: ys'). split; [by constructor | by constructor].
  - inversion H as [| ? y' dy ? rest1 ds1 Hy Hrest]; subst.
    inversion Hrest as [| ? x' dx ? rest2 ds2 Hx Hxs]; subst.
    exists (x' :: y' :: rest2). split; [| by constructor].
    replace (dy ⊕ (dx ⊕ ds2)) with (dx ⊕ (dy ⊕ ds2)).
    + by repeat constructor.
    + apply store_eq; simpl.
      * by rewrite (body_definitions _ _ _ _ Hx),
                   (body_definitions _ _ _ _ Hy).
      * lia.
      * lia.
      * set_solver.
  - destruct (IH1 _ _ H) as (ys' & Hys & Hp1).
    destruct (IH2 _ _ Hys) as (zs' & Hzs & Hp2).
    exists zs'. split; [done | by etrans].
Qed.
End for_each_facts.

(** What the loop counted is the sum of what its turns counted. *)
Section counting.
Context {A : Type} (body : A → run A).
Context (count : store → nat) (weight : A → nat).
Hypothesis count_initial : ∀ defs, count (initial_store defs) = 0.
Hypothesis count_add : ∀ a b, count (a ⊕ b) = count a + count b.

Lemma each_count defs xs xs' ds :
  (∀ x x' d, x ∈ xs → body x (initial_store defs) = (inr x', d) →
             count d = weight x) →
  each body defs xs xs' ds →
  count ds = sum_list_with weight xs.
Proof.
  intros Hw H. induction H as [| x x' d xs xs' ds Hx Hxs IH]; simpl.
  - apply count_initial.
  - rewrite count_add, IH.
    + f_equal. eapply Hw; [apply list_elem_of_here | done].
    + intros y y' dy Hy. apply Hw. by apply list_elem_of_further.
Qed.
End counting.

Lemma sum_list_with_filter {A} (p : A → bool) (xs : list A) :
  sum_list_with (λ x, if p x then 1 else 0) xs = length (List.filter p xs).
Proof.
  induction xs as [| x xs IH]; simpl; [done |]. destruct (p x); simpl; lia.
Qed.

Lemma sum_list_with_concat {A B} (f : A → list B) (w : B → nat) xs :
  sum_list_with (λ x, sum_list_with w (f x)) xs
  = sum_list_with w (concat (map f xs)).
Proof.
  induction xs as [| x xs IH]; simpl; [done |].
  by rewrite sum_list_with_app, IH.
Qed.

(** A property of the counts that holds of every turn holds of the loop. *)
Lemma each_invariant {A} (body : A → run A) (P : store → Prop) defs xs xs' ds :
  P (initial_store defs) →
  (∀ a b, P a → P b → P (a ⊕ b)) →
  (∀ x x' d, x ∈ xs → body x (initial_store defs) = (inr x', d) → P d) →
  each body defs xs xs' ds → P ds.
Proof.
  intros H0 Hadd Hbody H.
  induction H as [| x x' d xs xs' ds Hx Hxs IH]; [done |].
  apply Hadd.
  - eapply Hbody; [apply list_elem_of_here | done].
  - apply IH. intros y y' dy Hy. apply Hbody. by apply list_elem_of_further.
Qed.

(** The keys a turn recorded are among the keys the loop recorded. *)
Lemma each_missing {A} (body : A → run A) defs xs xs' ds i x x' d :
  each body defs xs xs' ds → xs !! i = Some x →
  body x (initial_store defs) = (inr x', d) →
  missing_strongs d ⊆ missing_strongs ds.
Proof.
  intros H. revert i. induction H as [| y y' dy xs xs' ds Hy Hxs IH];
    intros [| i]; simpl; try done.
  - intros [= ->] Hx. rewrite Hx in Hy. injection Hy as <- <-. set_solver.
  - intros Hi Hx. specialize (IH i Hi Hx). set_solver.
Qed.

(** ** What a returning turn of the outer loop did *)

Lemma merge_verse_initial defs verse_data verse_data' d :
  merge_verse verse_data (initial_store defs) = (inr verse_data', d) →
  verse_outcome defs verse_data verse_data' d.
Proof.
  destruct verse_data as [| | | s | items | fields]; simpl; try done.
  - destruct (str_contains _ _); [done |]. intros [= <- <-]. by constructor.
  - destruct (list_contains_str _ _); [done |]. intros [= <- <-].
    by constructor.
  - destruct (dict_get "tokens" fields) as [tokens |] eqn:Hget.
    + intros H. apply bind_returns in H as (tokens' & st1 & Hf & H).
      injection H as <- <-.
      destruct tokens as [| | | s | items | entries]; simpl in Hf; try done.
      * destruct (String.eqb s "") eqn:Es; [| done]. injection Hf as <- <-.
        rewrite (dict_set_id _ _ _ Hget). constructor. simpl. by rewrite Hget.
      * apply bind_returns in Hf as (items' & st2 & Hitems & Hf).
        injection Hf as <- <-.
        eapply walked; [exact Hget |].
        by apply for_each_each; [apply local_merge_token |].
      * destruct entries; [| done]. injection Hf as <- <-.
        rewrite (dict_set_id _ _ _ Hget). constructor. simpl. by rewrite Hget.
    + intros [= <- <-]. constructor. simpl. by rewrite Hget.
Qed.

Lemma merge_verse_walked defs fields items items' d :
  dict_get "tokens" fields = Some (JList items) →
  each merge_token defs items items' d →
  merge_verse (JDict fields) (initial_store defs)
  = (inr (JDict (dict_set "tokens" (JList items') fields)), d).
Proof.
  intros Hget H. simpl. rewrite Hget. unfold bind at 1. simpl.
  unfold bind at 1. unfold merge_tokens.
  by rewrite (each_for_each _ local_merge_token _ _ _ _ H).
Qed.

Lemma merge_item_initial defs item item' d :
  merge_item item (initial_store defs) = (inr item', d) →
  item'.1 = item.1 ∧ verse_outcome defs item.2 item'.2 d.
Proof.
  intros H. apply bind_returns in H as (verse_data' & st1 & Hv & H).
  injection H as <- <-. split; [done |]. by apply merge_verse_initial.
Qed.

(** The function returns exactly when the outer loop does. *)
Lemma update_returns verses defs verses' u n m :
  update_strong_definitions verses defs = inr (verses', u, n, m) ↔
  ∃ ds, each merge_item defs verses verses' ds
        ∧ u = updated_count ds ∧ n = not_found_count ds
        ∧ m = missing_strongs ds.
Proof.
  unfold update_strong_definitions, merge_verses. split.
  - destruct (for_each merge_item verses (initial_store defs))
      as [[e | out] ds] eqn:H; [done |].
    intros [= <- <- <- <-]. exists ds.
    split; [| done]. by apply for_each_each; [apply local_merge_item |].
  - intros (ds & H & -> & -> & ->).
    by rewrite (each_for_each _ local_merge_item _ _ _ _ H).
Qed.

(** The tokens of a verse record after its turn. *)
Lemma tokens_of_walked fields items' :
  tokens_of (JDict (dict_set "tokens" (JList items') fields)) = items'.
Proof. simpl. by rewrite dict_get_set_eq. Qed.

Lemma tokens_of_dict fields items :
  dict_get "tokens" fields = Some (JList items) →
  tokens_of (JDict fields) = items.
Proof. intros H. simpl. by rewrite H. Qed.

(** Every token of the collection went through one turn of the inner loop,
    and stays where it was. *)
Lemma token_at_outcome defs verses verses' ds i j token :
  each merge_item defs verses verses' ds →
  token_at verses i j = Some token →
  ∃ fields token' d,
    token = JDict fields
    ∧ token_at verses' i j = Some token'
    ∧ token_outcome defs fields token' d
    ∧ missing_strongs d ⊆ missing_strongs ds.
Proof.
  intros H. unfold token_at.
  destruct (verses !! i) as [[verse_ref verse_data] |] eqn:Hi; [| done].
  intros Hj.
  destruct (each_lookup _ _ _ _ _ _ _ H Hi) as (item' & dv & Hi' & Hitem).
  pose proof (each_missing _ _ _ _ _ _ _ _ _ H Hi Hitem) as Hsub.
  apply merge_item_initial in Hitem as [_ Hv]. simpl in Hv.
  rewrite Hi'. destruct item' as [verse_ref' verse_data']. simpl in *.
  inversion Hv as [vd Hnone | fields items items' d Hget Hitems]; subst.
  - rewrite Hnone in Hj. done.
  - rewrite (tokens_of_dict _ _ Hget) in Hj. rewrite tokens_of_walked.
    destruct (each_lookup _ _ _ _ _ _ _ Hitems Hj) as (token' & d & Hj' & Ht).
    pose proof (each_missing _ _ _ _ _ _ _ _ _ Hitems Hj Ht) as Hsub'.
    apply merge_token_initial in Ht as (tf & -> & Ho).
    exists tf, token', d. repeat split; try done. set_solver.
Qed.

(** ** When the run returns *)

Lemma each_exists {A} (body : A → run A) defs xs :
  (∃ xs' ds, each body defs xs xs' ds) ↔
  Forall (λ x, ∃ x' d, body x (initial_store defs) = (inr x', d)) xs.
Proof.
  split.
  - intros (xs' & ds & H). induction H; constructor; eauto.
  - induction 1 as [| x xs (x' & d & Hx) _ (xs' & ds & IH)].
    + exists [], (initial_store defs). constructor.
    + exists (x' :: xs'), (d ⊕ ds). by constructor.
Qed.

(** The two ways such an equivalence is closed once the step is evaluated. *)
Ltac step_raises := split; [by intros (? & ? & ?) | done].
Ltac step_returns := split; [done | intros _; unfold ret; eauto].

Lemma merge_token_ok defs token :
  (∃ token' d, merge_token token (initial_store defs) = (inr token', d)) ↔
  token_ok token = true.
Proof.
  destruct token as [| | | | | fields]; simpl; try step_raises.
  destruct (truthy (get_strongs fields)); simpl; [| step_returns].
  unfold bind, lift, lookup_definition, count_updated, count_not_found.
  destruct (hash_key (get_strongs fields)) as [e | k]; [step_raises |].
  simpl. destruct (defs_get k defs) as [new_def |]; [| step_returns].
  destruct (py_ne (get_strong_def fields) new_def); step_returns.
Qed.

Lemma merge_tokens_ok defs items :
  (∃ items' d, each merge_token defs items items' d) ↔
  forallb token_ok items = true.
Proof.
  rewrite each_exists, forallb_forall, Forall_forall.
  split; intros H token Hin.
  - apply merge_token_ok with defs, H. by apply list_elem_of_In.
  - apply merge_token_ok, H. by apply list_elem_of_In.
Qed.

Lemma merge_verse_ok defs verse_data :
  (∃ verse_data' d,
     merge_verse verse_data (initial_store defs) = (inr verse_data', d)) ↔
  verse_ok verse_data = true.
Proof.
  destruct verse_data as [| | | s | items | fields]; simpl; try step_raises.
  - destruct (str_contains "tokens" s); simpl; [step_raises | step_returns].
  - destruct (list_contains_str "tokens" items); simpl;
      [step_raises | step_returns].
  - destruct (dict_get "tokens" fields) as [tokens |] eqn:Hget;
      [| step_returns].
    destruct tokens as [| | | s | items | entries]; simpl; try step_raises.
    + unfold bind. simpl.
      destruct (String.eqb s ""); simpl; [step_returns | step_raises].
    + rewrite <- (merge_tokens_ok defs). split.
      * intros (vd' & d & H).
        apply bind_returns in H as (tokens' & st1 & Hf & _).
        apply bind_returns in Hf as (items' & st2 & Hitems & _).
        exists items', st2.
        by apply for_each_each; [apply local_merge_token |].
      * intros (items' & d & H).
        pose proof (merge_verse_walked _ _ _ _ _ Hget H) as Hv.
        simpl in Hv. rewrite Hget in Hv. eauto.
    + unfold bind. simpl. destruct entries; simpl; [step_returns | step_raises].
Qed.

Lemma merge_verses_ok defs verses :
  (∃ verses' ds, each merge_item defs verses verses' ds) ↔
  verses_ok verses = true.
Proof.
  unfold verses_ok. rewrite forallb_forall. split.
  - intros (verses' & ds & H) item Hin.
    apply list_elem_of_In in Hin.
    apply list_elem_of_lookup in Hin as [i Hi].
    destruct (each_lookup _ _ _ _ _ _ _ H Hi) as (item' & d & _ & Hitem).
    apply bind_returns in Hitem as (vd' & st1 & Hv & _).
    apply (merge_verse_ok defs). eauto.
  - intros H.
    apply each_exists, Forall_forall. intros item Hin%list_elem_of_In.
    apply H, (merge_verse_ok defs) in Hin as (vd' & d & Hv).
    exists (item.1, vd'), d. unfold merge_item, bind. by rewrite Hv.
Qed.

Lemma update_of_accepted verses defs :
  verses_ok verses = true →
  ∃ verses' u n m,
    update_strong_definitions verses defs = inr (verses', u, n, m).
Proof.
  intros (verses' & ds & H)%(merge_verses_ok defs).
  exists verses', (updated_count ds), (not_found_count ds),
         (missing_strongs ds).
  apply update_returns. by exists ds.
Qed.

(** X2. The function returns exactly on the collections whose verse records
    are all accepted, whatever the definitions map; on any other collection
    it raises. *)
Theorem returns_exactly_on_accepted verses defs :
  ((∃ result, update_strong_definitions verses defs = inr result) ↔
   verses_ok verses = true)
  ∧ ((∃ e, update_strong_definitions verses defs = inl e) ↔
     verses_ok verses = false).
Proof.
  assert (Hiff : (∃ result, update_strong_definitions verses defs = inr result)
                 ↔ verses_ok verses = true).
  { rewrite <- (merge_verses_ok defs). split.
    - intros ([[[verses' u] n] m] & (ds & H & _)%update_returns). eauto.
    - intros (verses' & ds & H).
      exists (verses', updated_count ds, not_found_count ds,
              missing_strongs ds).
      apply update_returns. by exists ds. }
  split; [done |].
  destruct (update_strong_definitions verses defs) as [e | result] eqn:Hupd.
  - split; [| by eauto]. intros _.
    destruct (verses_ok verses); [| done].
    destruct Hiff as [_ Hr]. by destruct (Hr eq_refl).
  - split; [by intros [? ?] |]. intros Hno.
    destruct Hiff as [Hr _]. rewrite Hr in Hno by eauto. done.
Qed.

(** ** The properties of the merge *)

Lemma truthy_str s : s ≠ "" → truthy (JStr s) = true.
Proof. intros H. simpl. apply String.eqb_neq in H. by rewrite H. Qed.

Lemma py_ne_false old_def new_def :
  py_ne old_def new_def = false ↔ old_def = JStr new_def.
Proof.
  destruct old_def as [| | | s | |]; simpl; split; try done.
  - intros H. apply negb_false_iff, String.eqb_eq in H. by subst.
  - intros [= ->]. by rewrite String.eqb_refl.
Qed.

Lemma get_strongs_str fields s :
  dict_get "strongs" fields = Some (JStr s) → get_strongs fields = JStr s.
Proof. unfold get_strongs. by intros ->. Qed.

Lemma get_strong_def_set fields new_def :
  get_strong_def (dict_set "strong_def" (JStr new_def) fields) = JStr new_def.
Proof. unfold get_strong_def. by rewrite dict_get_set_eq. Qed.

Lemma found_token_outcome defs fields token' d s new_def :
  token_outcome defs fields token' d →
  get_strongs fields = JStr s →
  s ≠ "" →
  defs !! s = Some new_def →
  ∃ fields', token' = JDict fields' ∧ get_strong_def fields' = JStr new_def.
Proof.
  intros Ho Hs Hne Hdef. pose proof (truthy_str s Hne) as Ht.
  rewrite <- Hs in Ht.
  destruct Ho as [Hf | k nd _ Hk Hd Hsame | k nd _ Hk Hd Hdiff | k _ Hk Hd];
    rewrite ?Hs in *; simpl in *.
  - congruence.
  - injection Hk as <-. simpl in Hd. rewrite Hdef in Hd. injection Hd as <-.
    exists fields. split; [done |]. by apply py_ne_false.
  - injection Hk as <-. simpl in Hd. rewrite Hdef in Hd. injection Hd as <-.
    eexists. split; [done |]. apply get_strong_def_set.
  - injection Hk as <-. simpl in Hd. congruence.
Qed.

Lemma found_token_has_outcome defs fields s new_def :
  get_strongs fields = JStr s →
  s ≠ "" →
  defs !! s = Some new_def →
  ∃ token' d, token_outcome defs fields token' d.
Proof.
  intros Hs Hne Hdef. pose proof (truthy_str s Hne) as Ht.
  rewrite <- Hs in Ht.
  destruct (py_ne (get_strong_def fields) new_def) eqn:Hpy.
  - eexists _, _. eapply updated; [done | by rewrite Hs | exact Hdef | done].
  - eexists _, _. eapply up_to_date; [done | by rewrite Hs | exact Hdef | done].
Qed.

(** C1. A token whose [strongs] is a non-empty string that is a key of the
    definitions map gets the definition of that key as its [strong_def]
    (read with the default [''] when the field is absent): the turn of the
    inner loop on that token returns, never raises, and leaves the token with
    that [strong_def]; the run on a collection the merge accepts returns; and
    after a run that returns the token, at its place, has that
    [strong_def]. *)
Theorem found_strongs_gets_definition
    verses defs i j fields s new_def :
  token_at verses i j = Some (JDict fields) →
  dict_get "strongs" fields = Some (JStr s) →
  s ≠ "" →
  defs !! s = Some new_def →
  (∀ st, strongs_definitions st = defs →
         ∃ fields' st',
           merge_token (JDict fields) st = (inr (JDict fields'), st')
           ∧ get_strong_def fields' = JStr new_def)
  ∧ (verses_ok verses = true →
     ∃ verses' u n m fields',
       update_strong_definitions verses defs = inr (verses', u, n, m)
       ∧ token_at verses' i j = Some (JDict fields')
       ∧ get_strong_def fields' = JStr new_def)
  ∧ (∀ verses' u n m,
       update_strong_definitions verses defs = inr (verses', u, n, m) →
       ∃ fields',
         token_at verses' i j = Some (JDict fields')
         ∧ get_strong_def fields' = JStr new_def).
Proof.
  intros Htok Hs%get_strongs_str Hne Hdef.
  assert (Hafter : ∀ verses' u n m,
    update_strong_definitions verses defs = inr (verses', u, n, m) →
    ∃ fields',
      token_at verses' i j = Some (JDict fields')
      ∧ get_strong_def fields' = JStr new_def).
  { intros verses' u n m (ds & Hrun & _)%update_returns.
    destruct (token_at_outcome _ _ _ _ _ _ _ Hrun Htok)
      as (fields0 & token' & d & [= <-] & Htok' & Ho & _).
    destruct (found_token_outcome _ _ _ _ _ _ Ho Hs Hne Hdef)
      as (fields' & -> & Hdef'). eauto. }
  split; [| split; [| done]].
  - intros st Hst.
    destruct (found_token_has_outcome _ _ _ _ Hs Hne Hdef) as (token' & d & Ho).
    destruct (found_token_outcome _ _ _ _ _ _ Ho Hs Hne Hdef)
      as (fields' & -> & Hdef').
    exists fields', (st ⊕ d). split; [| done].
    by apply (merge_token_outcome defs).
  - intros (verses' & u & n & m & Hupd)%(update_of_accepted _ defs).
    destruct (Hafter _ _ _ _ Hupd) as (fields' & Htok' & Hdef').
    exists verses', u, n, m, fields'. done.
Qed.

Lemma found_strongs_gets_definition_witness :
  (∀ st, strongs_definitions st = example_definitions →
         ∃ fields' st',
           merge_token
             (JDict [ ("strongs", JStr "G26"); ("strong_def", JStr "") ]) st
           = (inr (JDict fields'), st')
           ∧ get_strong_def fields' = JStr "love")
  ∧ (verses_ok example_verses = true →
     ∃ verses' u n m fields',
       update_strong_definitions example_verses example_definitions
       = inr (verses', u, n, m)
       ∧ token_at verses' 0 0 = Some (JDict fields')
       ∧ get_strong_def fields' = JStr "love")
  ∧ (∀ verses' u n m,
       update_strong_definitions example_verses example_definitions
       = inr (verses', u, n, m) →
       ∃ fields',
         token_at verses' 0 0 = Some (JDict fields')
         ∧ get_strong_def fields' = JStr "love").
Proof.
  apply (found_strongs_gets_definition
           example_verses example_definitions 0 0
           [ ("strongs", JStr "G26"); ("strong_def", JStr "") ] "G26" "love").
  - reflexivity.
  - reflexivity.
  - discriminate.
  - vm_compute. reflexivity.
Defined.

Lemma falsy_token_outcome defs fields token' d :
  truthy (get_strongs fields) = false →
  token_outcome defs fields token' d →
  token' = JDict fields ∧ d = initial_store defs.
Proof. intros Hf [] ; done || congruence. Qed.

(** C3. A token whose [strongs] is falsy (absent, null, empty, and the other
    falsy values) is the same token after the run, and its turn of the loop
    returns the store it was given: neither counter moves. *)
Theorem falsy_strongs_token_skipped verses defs verses' u n m i j fields :
  update_strong_definitions verses defs = inr (verses', u, n, m) →
  token_at verses i j = Some (JDict fields) →
  truthy (get_strongs fields) = false →
  token_at verses' i j = Some (JDict fields)
  ∧ ∀ st, merge_token (JDict fields) st = (inr (JDict fields), st).
Proof.
  intros (ds & Hrun & _)%update_returns Htok Hf. split.
  - destruct (token_at_outcome _ _ _ _ _ _ _ Hrun Htok)
      as (fields0 & token' & d & [= <-] & Htok' & Ho & _).
    by destruct (falsy_token_outcome _ _ _ _ Hf Ho) as [-> _].
  - intros st. simpl. by rewrite Hf.
Qed.

(** The three falsy values the specification names. *)
Lemma falsy_strongs_cases fields :
  dict_get "strongs" fields = None
  ∨ dict_get "strongs" fields = Some JNull
  ∨ dict_get "strongs" fields = Some (JStr "") →
  truthy (get_strongs fields) = false.
Proof. unfold get_strongs. by intros [-> | [-> | ->]]. Qed.

Lemma falsy_strongs_token_skipped_witness :
  token_at falsy_verses 0 1
  = Some (JDict [ ("strongs", JStr ""); ("strong_def", JStr "x") ])
  ∧ ∀ st,
      merge_token (JDict [ ("strongs", JStr ""); ("strong_def", JStr "x") ]) st
      = (inr (JDict [ ("strongs", JStr ""); ("strong_def", JStr "x") ]), st).
Proof.
  apply (falsy_strongs_token_skipped
           falsy_verses example_definitions falsy_verses 0 0 ∅ 0 1).
  - vm_compute. reflexivity.
  - reflexivity.
  - reflexivity.
Defined.

(** C9. When the definition found equals the token's current [strong_def]
    (read with the default ['']), the token is left as it is, with no
    [strong_def] key created when there was none, and its turn of the loop
    returns the store it was given. *)
Theorem equal_definition_token_untouched
    verses defs verses' u n m i j fields s new_def :
  update_strong_definitions verses defs = inr (verses', u, n, m) →
  token_at verses i j = Some (JDict fields) →
  dict_get "strongs" fields = Some (JStr s) →
  s ≠ "" →
  defs !! s = Some new_def →
  get_strong_def fields = JStr new_def →
  token_at verses' i j = Some (JDict fields)
  ∧ ∀ st, strongs_definitions st = defs →
          merge_token (JDict fields) st = (inr (JDict fields), st).
Proof.
  intros (ds & Hrun & _)%update_returns Htok Hs Hne Hdef Hold.
  apply get_strongs_str in Hs. pose proof (truthy_str s Hne) as Ht.
  rewrite <- Hs in Ht.
  assert (Ho : token_outcome defs fields (JDict fields) (initial_store defs)).
  { eapply up_to_date; [done | by rewrite Hs | exact Hdef |].
    by apply py_ne_false. }
  split.
  - destruct (token_at_outcome _ _ _ _ _ _ _ Hrun Htok)
      as (fields0 & token' & d & [= <-] & Htok' & Ho' & _).
    pose proof (merge_token_outcome_initial _ _ _ _ Ho) as H1.
    pose proof (merge_token_outcome_initial _ _ _ _ Ho') as H2.
    rewrite H1 in H2. by injection H2 as <- _.
  - intros st Hst. rewrite (merge_token_outcome _ _ _ _ st Hst Ho).
    by rewrite store_add_initial.
Qed.

Lemma equal_definition_token_untouched_witness :
  token_at bare_verses 0 0 = Some (JDict [ ("strongs", JStr "G1") ])
  ∧ ∀ st, strongs_definitions st = empty_definition →
          merge_token (JDict [ ("strongs", JStr "G1") ]) st
          = (inr (JDict [ ("strongs", JStr "G1") ]), st).
Proof.
  apply (equal_definition_token_untouched
           bare_verses empty_definition bare_verses 0 0 ∅ 0 0
           [ ("strongs", JStr "G1") ] "G1" "").
  - vm_compute. reflexivity.
  - reflexivity.
  - reflexivity.
  - discriminate.
  - vm_compute. reflexivity.
  - reflexivity.
Defined.

(** C8. The end-to-end example: the first token gets ["love"], the second
    token is as it was, one update and one missing key are counted, and the
    missing set is [{"G9999"}]. *)
Theorem end_to_end_example :
  update_strong_definitions example_verses example_definitions
  = inr (example_verses_after, 1, 1, {[ KStr "G9999" ]})
  ∧ token_at example_verses_after 0 0
    = Some (JDict [ ("strongs", JStr "G26"); ("strong_def", JStr "love") ])
  ∧ token_at example_verses_after 0 1 = token_at example_verses 0 1.
Proof. split; [vm_compute; reflexivity | split; reflexivity]. Qed.

(** ** What the run counted *)

Lemma token_outcome_not_found defs fields token' d :
  token_outcome defs fields token' d →
  not_found_count d = if strongs_absent defs (JDict fields) then 1 else 0.
Proof.
  destruct 1 as [Ht | k nd Ht Hk Hd _ | k nd Ht Hk Hd _ | k Ht Hk Hd];
    simpl; rewrite Ht; simpl; rewrite ?Hk, ?Hd; done.
Qed.

Lemma token_outcome_updated defs fields token' d :
  token_outcome defs fields token' d →
  updated_count d = if needs_update defs (JDict fields) then 1 else 0.
Proof.
  destruct 1 as [Ht | k nd Ht Hk Hd Hn | k nd Ht Hk Hd Hn | k Ht Hk Hd];
    simpl; rewrite Ht; simpl; rewrite ?Hk, ?Hd, ?Hn; done.
Qed.

Section run_counts.
Context (count : store → nat) (p : gmap string string → json → bool).
Hypothesis count_initial : ∀ defs, count (initial_store defs) = 0.
Hypothesis count_add : ∀ a b, count (a ⊕ b) = count a + count b.
Hypothesis count_token : ∀ defs fields token' d,
  token_outcome defs fields token' d →
  count d = if p defs (JDict fields) then 1 else 0.

Lemma tokens_count defs items items' d :
  each merge_token defs items items' d →
  count d = length (List.filter (p defs) items).
Proof.
  intros H. rewrite <- sum_list_with_filter.
  eapply each_count; [done | done | | exact H].
  intros token token' dt _ Ht.
  apply merge_token_initial in Ht as (fields & -> & Ho).
  by eapply count_token.
Qed.

Lemma verses_count defs verses verses' ds :
  each merge_item defs verses verses' ds →
  count ds = length (List.filter (p defs) (all_tokens verses)).
Proof.
  intros H. unfold all_tokens.
  rewrite <- sum_list_with_filter, <- sum_list_with_concat.
  eapply each_count; [done | done | | exact H].
  intros item item' d _ Hitem.
  apply merge_item_initial in Hitem as [_ Hv].
  rewrite sum_list_with_filter.
  inversion Hv as [vd Hnone | fields items items' d' Hget Hitems]; subst.
  - rewrite Hnone. apply count_initial.
  - rewrite (tokens_of_dict _ _ Hget). by eapply tokens_count.
Qed.
End run_counts.

Lemma not_found_count_spec verses defs verses' u n m :
  update_strong_definitions verses defs = inr (verses', u, n, m) →
  n = length (List.filter (strongs_absent defs) (all_tokens verses)).
Proof.
  intros (ds & Hrun & _ & -> & _)%update_returns.
  eapply (verses_count not_found_count strongs_absent); [done | done | | exact Hrun].
  intros. by eapply token_outcome_not_found.
Qed.

Lemma updated_count_spec verses defs verses' u n m :
  update_strong_definitions verses defs = inr (verses', u, n, m) →
  u = length (List.filter (needs_update defs) (all_tokens verses)).
Proof.
  intros (ds & Hrun & -> & _)%update_returns.
  eapply (verses_count updated_count needs_update); [done | done | | exact Hrun].
  intros. by eapply token_outcome_updated.
Qed.

Lemma count_occ_elements (k : key) (m : gset key) :
  k ∈ m → count_occ key_eq_dec (elements m) k = 1.
Proof.
  intros Hin%elem_of_elements.
  pose proof (NoDup_elements m) as Hnd.
  induction Hnd as [| x l Hx Hnd IH]; [by apply elem_of_nil in Hin |].
  simpl. destruct (key_eq_dec x k) as [-> | Hne].
  - f_equal. apply count_occ_not_In. by rewrite <- list_elem_of_In.
  - apply IH. apply elem_of_cons in Hin as [-> | Hin]; done.
Qed.

(** C2. A token whose [strongs] is truthy and is no key of the definitions
    map is the same token after the run; the not-found count is the number
    of such token occurrences; and the key is in the missing set, which
    lists it once. *)
Theorem absent_strongs_counted_once
    verses defs verses' u n m i j fields k :
  update_strong_definitions verses defs = inr (verses', u, n, m) →
  token_at verses i j = Some (JDict fields) →
  truthy (get_strongs fields) = true →
  hash_key (get_strongs fields) = inr k →
  defs_get k defs = None →
  token_at verses' i j = Some (JDict fields)
  ∧ n = length (List.filter (strongs_absent defs) (all_tokens verses))
  ∧ k ∈ m
  ∧ count_occ key_eq_dec (elements m) k = 1.
Proof.
  intros Hupd Htok Ht Hk Hd.
  pose proof (not_found_count_spec _ _ _ _ _ _ Hupd) as Hn.
  apply update_returns in Hupd as (ds & Hrun & _ & _ & ->).
  destruct (token_at_outcome _ _ _ _ _ _ _ Hrun Htok)
    as (fields0 & token' & d & [= <-] & Htok' & Ho & Hsub).
  assert (token' = JDict fields ∧ k ∈ missing_strongs d) as [-> Hin].
  { destruct Ho as [Hf | k' nd _ Hk' Hd' _ | k' nd _ Hk' Hd' _ | k' _ Hk' Hd'];
      try congruence.
    rewrite Hk in Hk'. injection Hk' as <-. simpl. split; [done | set_solver]. }
  assert (k ∈ missing_strongs ds) by set_solver.
  repeat split; try done. by apply count_occ_elements.
Qed.

Lemma absent_strongs_counted_once_witness :
  token_at repeated_verses_after 1 0
  = Some (JDict [ ("strongs", JStr "G9999"); ("strong_def", JStr "old") ])
  ∧ 2 = length (List.filter (strongs_absent example_definitions)
                            (all_tokens repeated_verses))
  ∧ KStr "G9999" ∈ ({[ KStr "G9999" ]} : gset key)
  ∧ count_occ key_eq_dec (elements ({[ KStr "G9999" ]} : gset key))
              (KStr "G9999") = 1.
Proof.
  apply (absent_strongs_counted_once
           repeated_verses example_definitions repeated_verses_after
           1 2 {[ KStr "G9999" ]} 1 0
           [ ("strongs", JStr "G9999"); ("strong_def", JStr "old") ]
           (KStr "G9999")).
  - vm_compute. reflexivity.
  - reflexivity.
  - reflexivity.
  - reflexivity.
  - vm_compute. reflexivity.
Defined.

Lemma filter_disjoint_length {A} (p q : A → bool) (xs : list A) :
  (∀ x, p x = true → q x = false) →
  length (List.filter p xs) + length (List.filter q xs) ≤ length xs.
Proof.
  intros Hpq. induction xs as [| x xs IH]; simpl; [done |].
  destruct (p x) eqn:Hp.
  - rewrite (Hpq x Hp). simpl. lia.
  - destruct (q x); simpl; lia.
Qed.

Lemma needs_update_not_absent defs token :
  needs_update defs token = true → strongs_absent defs token = false.
Proof.
  destruct token as [| | | | | fields]; simpl; try done.
  destruct (truthy _); simpl; [| done].
  destruct (hash_key _) as [e | k]; [done |].
  by destruct (defs_get k defs).
Qed.

Lemma missing_within_count_initial defs :
  missing_within_count (initial_store defs).
Proof.
  unfold missing_within_count, initial_store.
  cbn [missing_strongs not_found_count]. by rewrite size_empty.
Qed.

Lemma missing_within_count_add a b :
  missing_within_count a → missing_within_count b →
  missing_within_count (a ⊕ b).
Proof.
  unfold missing_within_count, store_add.
  cbn [missing_strongs not_found_count]. intros Ha Hb.
  rewrite size_union_alt.
  assert (size (missing_strongs a ∖ missing_strongs b)
          ≤ size (missing_strongs a)) by (apply subseteq_size; set_solver).
  lia.
Qed.

Lemma missing_within_count_token defs fields token' d :
  token_outcome defs fields token' d → missing_within_count d.
Proof.
  destruct 1; unfold missing_within_count, initial_store;
    cbn [missing_strongs not_found_count];
    rewrite ?size_empty, ?size_singleton; lia.
Qed.

Lemma missing_within_count_verses defs verses verses' ds :
  each merge_item defs verses verses' ds → missing_within_count ds.
Proof.
  apply each_invariant;
    [apply missing_within_count_initial | apply missing_within_count_add |].
  intros item item' d _ [_ Hv]%merge_item_initial.
  inversion Hv as [vd Hnone | fields items items' d' Hget Hitems]; subst.
  - apply missing_within_count_initial.
  - revert Hitems. apply each_invariant;
      [apply missing_within_count_initial | apply missing_within_count_add |].
    intros token token' dt _ (tf & -> & Ho)%merge_token_initial.
    by eapply missing_within_count_token.
Qed.

(** C10. A turn of the inner loop adds one to at most one of the two
    counters; so the two counts together are at most the number of tokens,
    and the missing set has at most as many keys as the not-found count. *)
Theorem counters_bounded verses defs verses' u n m :
  update_strong_definitions verses defs = inr (verses', u, n, m) →
  u + n ≤ length (all_tokens verses)
  ∧ size m ≤ n
  ∧ ∀ token st token' st',
      merge_token token st = (inr token', st') →
      (updated_count st' = updated_count st
       ∧ not_found_count st' = not_found_count st)
      ∨ (updated_count st' = S (updated_count st)
         ∧ not_found_count st' = not_found_count st)
      ∨ (updated_count st' = updated_count st
         ∧ not_found_count st' = S (not_found_count st)).
Proof.
  intros Hupd. split; [| split].
  - rewrite (updated_count_spec _ _ _ _ _ _ Hupd),
            (not_found_count_spec _ _ _ _ _ _ Hupd).
    apply filter_disjoint_length, needs_update_not_absent.
  - apply update_returns in Hupd as (ds & Hrun & _ & -> & ->).
    by eapply missing_within_count_verses.
  - intros token st token' st' (fields & d & -> & Ho & ->)%merge_token_returns.
    destruct Ho; simpl; lia.
Qed.

Lemma counters_bounded_witness :
  1 + 2 ≤ length (all_tokens repeated_verses)
  ∧ size ({[ KStr "G9999" ]} : gset key) ≤ 2
  ∧ ∀ token st token' st',
      merge_token token st = (inr token', st') →
      (updated_count st' = updated_count st
       ∧ not_found_count st' = not_found_count st)
      ∨ (updated_count st' = S (updated_count st)
         ∧ not_found_count st' = not_found_count st)
      ∨ (updated_count st' = updated_count st
         ∧ not_found_count st' = S (not_found_count st)).
Proof.
  apply (counters_bounded repeated_verses example_definitions
                          repeated_verses_after 1 2 {[ KStr "G9999" ]}).
  vm_compute. reflexivity.
Defined.

(** C6. The definitions map in the store after the loop, whether the loop
    returned or raised, is the map the run started with. *)
Theorem definitions_never_mutated verses defs :
  strongs_definitions (merge_verses verses (initial_store defs)).2 = defs
  ∧ ∀ st, strongs_definitions (merge_verses verses st).2
          = strongs_definitions st.
Proof.
  split.
  - apply (local_definitions _ (initial_store defs)), local_merge_verses.
  - intros st. apply local_definitions, local_merge_verses.
Qed.

(** ** A second run *)

Lemma second_run_initial defs :
  second_run (initial_store defs) = initial_store defs.
Proof. done. Qed.

Lemma second_run_add a b : second_run (a ⊕ b) = second_run a ⊕ second_run b.
Proof. done. Qed.

Lemma get_strongs_set fields v :
  get_strongs (dict_set "strong_def" v fields) = get_strongs fields.
Proof. unfold get_strongs. by rewrite dict_get_set_ne. Qed.

Lemma token_outcome_again defs fields token' d :
  token_outcome defs fields token' d →
  ∃ fields', token' = JDict fields'
             ∧ token_outcome defs fields' token' (second_run d).
Proof.
  destruct 1 as [Ht | k nd Ht Hk Hd Hn | k nd Ht Hk Hd Hn | k Ht Hk Hd].
  - exists fields. split; [done |]. by apply skipped.
  - exists fields. split; [done |]. by eapply up_to_date.
  - eexists. split; [done |].
    eapply up_to_date; rewrite ?get_strongs_set; try done.
    apply py_ne_false, get_strong_def_set.
  - exists fields. split; [done |]. by eapply not_found.
Qed.

Lemma each_again {A} (body : A → run A) defs xs xs' ds :
  (∀ x x' d, body x (initial_store defs) = (inr x', d) →
             body x' (initial_store defs) = (inr x', second_run d)) →
  each body defs xs xs' ds →
  each body defs xs' xs' (second_run ds).
Proof.
  intros Hbody. induction 1 as [| x x' d xs xs' ds Hx Hxs IH].
  - constructor.
  - rewrite second_run_add. constructor; [by eapply Hbody | done].
Qed.

Lemma merge_token_again defs token token' d :
  merge_token token (initial_store defs) = (inr token', d) →
  merge_token token' (initial_store defs) = (inr token', second_run d).
Proof.
  intros (fields & -> & Ho)%merge_token_initial.
  apply token_outcome_again in Ho as (fields' & -> & Ho).
  by apply merge_token_outcome_initial.
Qed.

Lemma merge_item_again defs item item' d :
  merge_item item (initial_store defs) = (inr item', d) →
  merge_item item' (initial_store defs) = (inr item', second_run d).
Proof.
  intros H. pose proof H as [Hk Hv]%merge_item_initial.
  destruct item as [verse_ref verse_data], item' as [verse_ref' verse_data'].
  simpl in *. subst verse_ref'.
  inversion Hv as [vd Hnone | fields items items' d' Hget Hitems]; subst.
  - by rewrite second_run_initial.
  - unfold merge_item. simpl fst. simpl snd. unfold bind at 1.
    pose proof (each_again _ _ _ _ _ (merge_token_again defs) Hitems) as Hagain.
    rewrite (merge_verse_walked defs _ items' items' (second_run d)
               (dict_get_set_eq _ _ _) Hagain).
    by rewrite dict_set_set.
Qed.

(** C4. Idempotence: after a run that returns, a second run on the resulting
    collection with the same definitions returns that collection as it is,
    with an update count of zero (and the same not-found count and missing
    set). *)
Theorem second_run_updates_nothing verses defs verses' u n m :
  update_strong_definitions verses defs = inr (verses', u, n, m) →
  update_strong_definitions verses' defs = inr (verses', 0, n, m).
Proof.
  intros (ds & Hrun & -> & -> & ->)%update_returns.
  apply update_returns. exists (second_run ds). split; [| done].
  by apply (each_again _ _ verses _ _ (merge_item_again defs)).
Qed.

Lemma second_run_updates_nothing_witness :
  update_strong_definitions example_verses_after example_definitions
  = inr (example_verses_after, 0, 1, {[ KStr "G9999" ]}).
Proof.
  apply (second_run_updates_nothing example_verses example_definitions
                                    example_verses_after 1 1).
  vm_compute. reflexivity.
Defined.

(** ** The frame of the merge *)

Lemma token_outcome_frame defs fields token' d :
  token_outcome defs fields token' d → token_frame (JDict fields) token'.
Proof.
  destruct 1; constructor; try done.
  intros k' Hk'. by apply dict_get_set_ne.
Qed.

Lemma each_Forall2 {A} (body : A → run A) (R : A → A → Prop) defs xs xs' ds :
  (∀ x x' d, body x (initial_store defs) = (inr x', d) → R x x') →
  each body defs xs xs' ds → Forall2 R xs xs'.
Proof. intros HR. induction 1; constructor; eauto. Qed.

Lemma verse_outcome_frame defs verse_data verse_data' d :
  verse_outcome defs verse_data verse_data' d →
  verse_frame verse_data verse_data'.
Proof.
  destruct 1 as [vd Hnone | fields items items' d Hget Hitems].
  - constructor.
  - eapply verse_frame_tokens; [exact Hget |].
    revert Hitems. apply each_Forall2.
    intros token token' dt (tf & -> & Ho)%merge_token_initial.
    by eapply token_outcome_frame.
Qed.

Lemma dict_set_keys k v d :
  is_Some (dict_get k d) → (dict_set k v d).*1 = d.*1.
Proof.
  induction d as [| [k' v'] rest IH]; simpl; [by intros [? ?] |].
  destruct (String.eqb k k') eqn:E; simpl.
  - apply String.eqb_eq in E. by subst.
  - intros H. f_equal. by apply IH.
Qed.

Lemma verse_frame_fields fields verse_data' :
  verse_frame (JDict fields) verse_data' →
  ∃ fields', verse_data' = JDict fields'
    ∧ fields'.*1 = fields.*1
    ∧ ∀ k, k ≠ "tokens" → dict_get k fields' = dict_get k fields.
Proof.
  inversion 1 as [vd | f items items' Hget Hitems]; subst.
  - by exists fields.
  - eexists. split; [done |]. split.
    + apply dict_set_keys. by rewrite Hget.
    + intros k Hk. by apply dict_get_set_ne.
Qed.

Lemma verse_frame_tokens_of verse_data verse_data' :
  verse_frame verse_data verse_data' →
  Forall2 token_frame_or_same (tokens_of verse_data) (tokens_of verse_data').
Proof.
  destruct 1 as [vd | fields items items' Hget Hitems].
  - apply Forall_Forall2_diag, Forall_forall. intros. by left.
  - rewrite (tokens_of_dict _ _ Hget), tokens_of_walked.
    eapply Forall2_impl; [exact Hitems |]. intros. by right.
Qed.

(** C5. Frame: after a run that returns, the collection has the same verse
    keys in the same order; every verse record is the same record, or the
    same record with the list under ["tokens"] replaced by a list of as many
    tokens in the same order, each with every field but [strong_def] as it
    was. *)
Theorem only_strong_def_changes verses defs verses' u n m :
  update_strong_definitions verses defs = inr (verses', u, n, m) →
  Forall2 item_frame verses verses'
  ∧ verses'.*1 = verses.*1
  ∧ (∀ i verse_ref fields,
       verses !! i = Some (verse_ref, JDict fields) →
       ∃ fields', verses' !! i = Some (verse_ref, JDict fields')
         ∧ fields'.*1 = fields.*1
         ∧ ∀ k, k ≠ "tokens" → dict_get k fields' = dict_get k fields)
  ∧ (∀ i, length (tokens_of_at verses' i) = length (tokens_of_at verses i))
  ∧ (∀ i j token,
       token_at verses i j = Some token →
       ∃ token', token_at verses' i j = Some token'
                 ∧ token_frame token token').
Proof.
  intros (ds & Hrun & _)%update_returns.
  assert (HF : Forall2 item_frame verses verses').
  { revert Hrun. apply each_Forall2.
    intros item item' d [Hk Hv]%merge_item_initial.
    split; [done | by eapply verse_outcome_frame]. }
  split; [done |]. split; [| split; [| split]].
  - clear Hrun. induction HF as [| item item' ? ? [Hk _] _ IH]; [done |].
    rewrite !fmap_cons. by f_equal.
  - intros i verse_ref fields Hi.
    destruct (Forall2_lookup_l _ _ _ _ _ HF Hi)
      as ([verse_ref' verse_data'] & Hi' & Hk & Hv).
    simpl in *. subst verse_ref'.
    apply verse_frame_fields in Hv as (fields' & -> & Hkeys & Hget).
    eauto.
  - intros i. unfold tokens_of_at.
    destruct (verses !! i) as [[verse_ref verse_data] |] eqn:Hi.
    + destruct (Forall2_lookup_l _ _ _ _ _ HF Hi)
        as ([verse_ref' verse_data'] & Hi' & Hk & Hv).
      rewrite Hi'. simpl in *.
      by apply verse_frame_tokens_of, Forall2_length in Hv.
    + destruct (verses' !! i) as [item' |] eqn:Hi'; [| done].
      destruct (Forall2_lookup_r _ _ _ _ _ HF Hi') as (? & ? & _). congruence.
  - intros i j token Htok.
    destruct (token_at_outcome _ _ _ _ _ _ _ Hrun Htok)
      as (fields & token' & d & -> & Htok' & Ho & _).
    exists token'. split; [done | by eapply token_outcome_frame].
Qed.

Lemma only_strong_def_changes_witness :
  Forall2 item_frame example_verses example_verses_after
  ∧ example_verses_after.*1 = example_verses.*1
  ∧ (∀ i verse_ref fields,
       example_verses !! i = Some (verse_ref, JDict fields) →
       ∃ fields', example_verses_after !! i = Some (verse_ref, JDict fields')
         ∧ fields'.*1 = fields.*1
         ∧ ∀ k, k ≠ "tokens" → dict_get k fields' = dict_get k fields)
  ∧ (∀ i, length (tokens_of_at example_verses_after i)
          = length (tokens_of_at example_verses i))
  ∧ (∀ i j token,
       token_at example_verses i j = Some token →
       ∃ token', token_at example_verses_after i j = Some token'
                 ∧ token_frame token token').
Proof.
  apply (only_strong_def_changes example_verses example_definitions
                                 example_verses_after 1 1 {[ KStr "G9999" ]}).
  vm_compute. reflexivity.
Defined.

(** ** The order of the loops *)

Lemma merge_verse_reordered defs verse_data verse_data' d verse_data2 :
  merge_verse verse_data (initial_store defs) = (inr verse_data', d) →
  reordered_verse verse_data verse_data2 →
  ∃ verse_data2',
    merge_verse verse_data2 (initial_store defs) = (inr verse_data2', d)
    ∧ reordered_verse verse_data' verse_data2'.
Proof.
  intros Hrun Hre.
  destruct Hre as [vd | fields items items2 Hget Hperm].
  - exists verse_data'. split; [done | constructor].
  - pose proof (merge_verse_initial _ _ _ _ Hrun) as Hv.
    inversion Hv as [vd Hnone | f items0 items' d' Hget' Hitems]; subst.
    + rewrite (tokens_of_dict _ _ Hget) in Hnone. subst items.
      apply Permutation_nil_l in Hperm. subst items2.
      rewrite (dict_set_id _ _ _ Hget).
      exists (JDict fields). split; [done | constructor].
    + rewrite Hget in Hget'. injection Hget' as <-.
      destruct (each_Permutation _ local_merge_token _ _ _ _ _ Hitems Hperm)
        as (items2' & Hitems2 & Hperm').
      exists (JDict (dict_set "tokens" (JList items2') fields)). split.
      * rewrite (merge_verse_walked defs _ items2 items2' d
                   (dict_get_set_eq _ _ _) Hitems2).
        by rewrite dict_set_set.
      * rewrite <- (dict_set_set "tokens" (JList items2') (JList items') fields).
        eapply reordered_tokens; [apply dict_get_set_eq | done].
Qed.

Lemma merge_item_reordered defs item item' d item2 :
  merge_item item (initial_store defs) = (inr item', d) →
  reordered_item item item2 →
  ∃ item2',
    merge_item item2 (initial_store defs) = (inr item2', d)
    ∧ reordered_item item' item2'.
Proof.
  intros H [Hk Hre].
  apply bind_returns in H as (verse_data' & st1 & Hv & H).
  injection H as <- <-.
  destruct (merge_verse_reordered _ _ _ _ _ Hv Hre) as (vd2' & Hv2 & Hre').
  exists (item2.1, vd2'). split; [| done].
  unfold merge_item, bind. by rewrite Hv2.
Qed.

Lemma each_reordered defs verses verses' ds mid :
  each merge_item defs verses verses' ds →
  Forall2 reordered_item verses mid →
  ∃ mid', each merge_item defs mid mid' ds ∧ Forall2 reordered_item verses' mid'.
Proof.
  intros H. revert mid.
  induction H as [| item item' d verses verses' ds Hitem Hrest IH];
    intros mid HF.
  - apply Forall2_nil_inv_l in HF as ->. exists []. split; constructor.
  - apply Forall2_cons_inv_l in HF as (item2 & rest2 & Hre & HF & ->).
    destruct (merge_item_reordered _ _ _ _ _ Hitem Hre) as (item2' & H2 & Hre').
    destruct (IH _ HF) as (rest2' & Hrest2 & HF').
    exists (item2' :: rest2'). split; by constructor.
Qed.

(** C7. Two runs on the same input give the same result; and a run on the
    same collection with the verses, and the tokens of each verse, in another
    order returns the same counts and the same missing set, and a collection
    with the same verse records and the same tokens in that other order. *)
Theorem order_does_not_matter verses verses2 defs verses' u n m :
  reordered verses verses2 →
  update_strong_definitions verses defs = inr (verses', u, n, m) →
  (∀ r1 r2,
     update_strong_definitions verses defs = r1 →
     update_strong_definitions verses defs = r2 → r1 = r2)
  ∧ ∃ verses2',
      update_strong_definitions verses2 defs = inr (verses2', u, n, m)
      ∧ reordered verses' verses2'.
Proof.
  intros (mid & HF & Hperm) (ds & Hrun & -> & -> & ->)%update_returns.
  split; [congruence |].
  destruct (each_reordered _ _ _ _ _ Hrun HF) as (mid' & Hmid & HF').
  destruct (each_Permutation _ local_merge_item _ _ _ _ _ Hmid Hperm)
    as (verses2' & Hrun2 & Hperm').
  exists verses2'. split.
  - apply update_returns. by exists ds.
  - by exists mid'.
Qed.

Lemma repeated_verses_reordering :
  reordered repeated_verses repeated_verses_reordered.
Proof.
  exists [ ("John 1:1",
            JDict [ ("tokens", JList [ JDict [ ("strongs", JStr "G26") ];
                                       JDict [ ("strongs", JStr "G9999") ] ]) ]);
           ("John 1:2",
            JDict [ ("tokens", JList [ JDict [ ("strongs", JStr "G9999");
                                               ("strong_def", JStr "old") ] ]) ]) ].
  split.
  - constructor; [| constructor; [| constructor]].
    + split; [done |].
      apply (reordered_tokens
               [ ("tokens", JList [ JDict [ ("strongs", JStr "G9999") ];
                                    JDict [ ("strongs", JStr "G26") ] ]) ]
               [ JDict [ ("strongs", JStr "G9999") ];
                 JDict [ ("strongs", JStr "G26") ] ]
               [ JDict [ ("strongs", JStr "G26") ];
                 JDict [ ("strongs", JStr "G9999") ] ]);
        [done | apply perm_swap].
    + split; [done | constructor].
  - apply perm_swap.
Defined.

Lemma order_does_not_matter_witness :
  (∀ r1 r2,
     update_strong_definitions repeated_verses example_definitions = r1 →
     update_strong_definitions repeated_verses example_definitions = r2 →
     r1 = r2)
  ∧ ∃ verses2',
      update_strong_definitions repeated_verses_reordered example_definitions
      = inr (verses2', 1, 2, {[ KStr "G9999" ]})
      ∧ reordered repeated_verses_after verses2'.
Proof.
  apply (order_does_not_matter repeated_verses repeated_verses_reordered
                               example_definitions repeated_verses_after).
  - apply repeated_verses_reordering.
  - vm_compute. reflexivity.
Defined.

(** ** More on the merge *)


(** X1. A verse record with no ["tokens"] key is skipped: it is the same
    record after the run, and its turn of the outer loop returns the store
    it was given. *)
Theorem verse_without_tokens_skipped
    verses defs verses' u n m i verse_ref fields :
  update_strong_definitions verses defs = inr (verses', u, n, m) →
  verses !! i = Some (verse_ref, JDict fields) →
  dict_get "tokens" fields = None →
  verses' !! i = Some (verse_ref, JDict fields)
  ∧ ∀ st, merge_item (verse_ref, JDict fields) st
          = (inr (verse_ref, JDict fields), st).
Proof.
  intros (ds & Hrun & _)%update_returns Hi Hget.
  assert (Hturn : ∀ st, merge_item (verse_ref, JDict fields) st
                        = (inr (verse_ref, JDict fields), st)).
  { intros st. unfold merge_item, bind. simpl. by rewrite Hget. }
  split; [| done].
  destruct (each_lookup _ _ _ _ _ _ _ Hrun Hi) as (item' & d & Hi' & Hitem).
  rewrite Hturn in Hitem. by injection Hitem as <- _.
Qed.

Lemma verse_without_tokens_skipped_witness :
  plain_verses_after !! 0
  = Some ("Gen 1:1", JDict [ ("text", JStr "In the beginning") ])
  ∧ ∀ st, merge_item ("Gen 1:1", JDict [ ("text", JStr "In the beginning") ]) st
          = (inr ("Gen 1:1", JDict [ ("text", JStr "In the beginning") ]), st).
Proof.
  apply (verse_without_tokens_skipped
           plain_verses example_definitions plain_verses_after 1 0 ∅ 0).
  - vm_compute. reflexivity.
  - reflexivity.
  - reflexivity.
Defined.

(** The keys the loop recorded are the keys its turns recorded. *)
Lemma each_missing_elem {A} (body : A → run A) defs xs xs' ds k :
  each body defs xs xs' ds →
  k ∈ missing_strongs ds ↔
  ∃ x x' d, x ∈ xs ∧ body x (initial_store defs) = (inr x', d)
            ∧ k ∈ missing_strongs d.
Proof.
  induction 1 as [| x x' d xs xs' ds Hx Hxs IH].
  - split; [set_solver |]. by intros (? & ? & ? & ?%elem_of_nil & _).
  - simpl. rewrite elem_of_union, IH. split.
    + intros [(y & y' & dy & Hin & Hy & Hk) | Hk].
      * exists y, y', dy. split; [by apply list_elem_of_further | done].
      * exists x, x', d. split; [apply list_elem_of_here | done].
    + intros (y & y' & dy & Hin & Hy & Hk).
      apply elem_of_cons in Hin as [-> | Hin].
      * right. rewrite Hx in Hy. by injection Hy as _ <-.
      * left. eauto 10.
Qed.

Lemma token_outcome_missing defs fields token' d k :
  token_outcome defs fields token' d →
  k ∈ missing_strongs d ↔ missing_key defs (JDict fields) = Some k.
Proof.
  destruct 1 as [Ht | k' nd Ht Hk Hd _ | k' nd Ht Hk Hd _ | k' Ht Hk Hd];
    simpl; rewrite Ht, ?Hk, ?Hd; try (split; [set_solver | done]).
  rewrite elem_of_singleton. split; congruence.
Qed.

Lemma elem_of_all_tokens token verses :
  token ∈ all_tokens verses ↔
  ∃ item, item ∈ verses ∧ token ∈ tokens_of item.2.
Proof.
  unfold all_tokens. induction verses as [| item0 rest IH]; simpl.
  - split; [by intros ?%elem_of_nil |].
    by intros (item & ?%elem_of_nil & _).
  - rewrite elem_of_app, IH. split.
    + intros [Hin | (item & Hitem & Hin)].
      * exists item0. split; [apply list_elem_of_here | done].
      * exists item. split; [by apply list_elem_of_further | done].
    + intros (item & [-> | Hitem]%elem_of_cons & Hin); [by left |].
      right. eauto.
Qed.

(** The missing set holds exactly the keys recorded for the tokens. *)
Lemma missing_strongs_spec defs verses verses' ds k :
  each merge_item defs verses verses' ds →
  k ∈ missing_strongs ds ↔
  ∃ token, token ∈ all_tokens verses ∧ missing_key defs token = Some k.
Proof.
  intros Hrun. rewrite (each_missing_elem _ _ _ _ _ k Hrun). split.
  + intros (item & item' & d & Hin & [_ Hv]%merge_item_initial & Hk).
    inversion Hv as [vd Hnone | fields items items' d' Hget Hitems]; subst;
      [set_solver |].
    apply (each_missing_elem _ _ _ _ _ k Hitems) in Hk
      as (token & token' & dt & Htin & Ht & Hk).
    apply merge_token_initial in Ht as (tf & -> & Ho).
    exists (JDict tf). split.
    * apply elem_of_all_tokens. exists item. split; [done |].
      destruct item as [verse_ref verse_data]. simpl in *. subst.
      by rewrite (tokens_of_dict _ _ Hget).
    * by apply (token_outcome_missing _ _ _ _ k Ho).
  + intros (token & (item & Hin & Htin)%elem_of_all_tokens & Hkey).
    apply list_elem_of_lookup in Hin as [i Hi].
    destruct (each_lookup _ _ _ _ _ _ _ Hrun Hi) as (item' & d & _ & Hitem).
    exists item, item', d. split; [by eapply list_elem_of_lookup_2 |].
    split; [done |].
    apply merge_item_initial in Hitem as [_ Hv].
    inversion Hv as [vd Hnone | fields items items' d' Hget Hitems]; subst.
    * rewrite Hnone in Htin. by apply elem_of_nil in Htin.
    * rewrite <- H in Htin. rewrite (tokens_of_dict _ _ Hget) in Htin.
      apply (each_missing_elem _ _ _ _ _ k Hitems).
      apply list_elem_of_lookup in Htin as [j Hj].
      destruct (each_lookup _ _ _ _ _ _ _ Hitems Hj)
        as (token' & dt & _ & Ht).
      exists token, token', dt.
      split; [by eapply list_elem_of_lookup_2 |]. split; [done |].
      apply merge_token_initial in Ht as (tf & -> & Ho).
      by apply (token_outcome_missing _ _ _ _ k Ho).
Qed.

(** X3. The update count is the number of token occurrences whose [strongs]
    is a key of the map with a definition other than the token's
    [strong_def]; the missing set holds exactly the hashed [strongs] of the
    tokens whose truthy [strongs] is no key of the map. *)
Theorem aggregates_exact verses defs verses' u n m :
  update_strong_definitions verses defs = inr (verses', u, n, m) →
  u = length (List.filter (needs_update defs) (all_tokens verses))
  ∧ ∀ k, k ∈ m ↔
         ∃ token, token ∈ all_tokens verses ∧ missing_key defs token = Some k.
Proof.
  intros (ds & Hrun & -> & _ & ->)%update_returns. split.
  - eapply (verses_count updated_count needs_update);
      [done | done | | exact Hrun].
    intros. by eapply token_outcome_updated.
  - intros k. by eapply missing_strongs_spec.
Qed.

Lemma aggregates_exact_witness :
  1 = length (List.filter (needs_update example_definitions)
                          (all_tokens repeated_verses))
  ∧ ∀ k, k ∈ ({[ KStr "G9999" ]} : gset key) ↔
         ∃ token, token ∈ all_tokens repeated_verses
                  ∧ missing_key example_definitions token = Some k.
Proof.
  apply (aggregates_exact repeated_verses example_definitions
                          repeated_verses_after 1 2 {[ KStr "G9999" ]}).
  vm_compute. reflexivity.
Defined.





(** ** What the update count says of the collection *)

Lemma token_outcome_unchanged_iff defs fields token' d :
  token_outcome defs fields token' d →
  updated_count d = 0 ↔ token' = JDict fields.
Proof.
  destruct 1 as [Ht | k nd Ht Hk Hd Hn | k nd Ht Hk Hd Hn | k Ht Hk Hd];
    simpl; try done.
  split; [done |]. intros [= Heq].
  assert (get_strong_def fields = JStr nd) as Hsame
    by (rewrite <- Heq; apply get_strong_def_set).
  apply py_ne_false in Hsame. congruence.
Qed.

Lemma each_unchanged_iff {A} (body : A → run A) defs xs xs' ds :
  (∀ x x' d, body x (initial_store defs) = (inr x', d) →
             updated_count d = 0 ↔ x' = x) →
  each body defs xs xs' ds →
  updated_count ds = 0 ↔ xs' = xs.
Proof.
  intros Hbody. induction 1 as [| x x' d xs xs' ds Hx Hxs IH]; [done |].
  simpl. specialize (Hbody _ _ _ Hx). split.
  - intros H0. f_equal; [apply Hbody | apply IH]; lia.
  - intros [= Hx' Hxs']. apply Hbody in Hx'. apply IH in Hxs'. lia.
Qed.

Lemma merge_token_unchanged_iff defs token token' d :
  merge_token token (initial_store defs) = (inr token', d) →
  updated_count d = 0 ↔ token' = token.
Proof.
  intros (fields & -> & Ho)%merge_token_initial.
  by eapply token_outcome_unchanged_iff.
Qed.

Lemma merge_item_unchanged_iff defs item item' d :
  merge_item item (initial_store defs) = (inr item', d) →
  updated_count d = 0 ↔ item' = item.
Proof.
  intros [Hk Hv]%merge_item_initial.
  destruct item as [verse_ref verse_data], item' as [verse_ref' verse_data'].
  simpl in *. subst verse_ref'.
  inversion Hv as [vd Hnone | fields items items' d' Hget Hitems]; subst;
    [done |].
  rewrite (each_unchanged_iff _ _ _ _ _ (merge_token_unchanged_iff defs) Hitems).
  split.
  - intros ->. by rewrite (dict_set_id _ _ _ Hget).
  - intros [= Heq].
    pose proof (dict_get_set_eq "tokens" (JList items') fields) as Hget'.
    rewrite Heq, Hget in Hget'. by injection Hget' as <-.
Qed.

(** X5. The update count is zero exactly when the collection the run returns
    is the collection it was given. *)
Theorem no_update_iff_unchanged verses defs verses' u n m :
  update_strong_definitions verses defs = inr (verses', u, n, m) →
  u = 0 ↔ verses' = verses.
Proof.
  intros (ds & Hrun & -> & _)%update_returns.
  by apply (each_unchanged_iff _ _ _ _ _ (merge_item_unchanged_iff defs)).
Qed.

Lemma no_update_iff_unchanged_witness :
  1 = 0 ↔ example_verses_after = example_verses.
Proof.
  apply (no_update_iff_unchanged example_verses example_definitions
                                 example_verses_after 1 1 {[ KStr "G9999" ]}).
  vm_compute. reflexivity.
Defined.

(** X6. A token is changed by the run exactly when its [strongs] is a key of
    the map with a definition other than its [strong_def]. *)
Theorem token_changed_iff_needs_update
    verses defs verses' u n m i j token token' :
  update_strong_definitions verses defs = inr (verses', u, n, m) →
  token_at verses i j = Some token →
  token_at verses' i j = Some token' →
  token' ≠ token ↔ needs_update defs token = true.
Proof.
  intros (ds & Hrun & _)%update_returns Htok Htok'.
  destruct (token_at_outcome _ _ _ _ _ _ _ Hrun Htok)
    as (fields & token1 & d & -> & Htok1 & Ho & _).
  rewrite Htok' in Htok1. injection Htok1 as <-.
  pose proof (token_outcome_unchanged_iff _ _ _ _ Ho) as Hiff.
  pose proof (token_outcome_updated _ _ _ _ Ho) as Hu.
  destruct (needs_update defs (JDict fields)).
  - split; [done |]. intros _ Heq. apply Hiff in Heq. lia.
  - split; [| done]. intros Hne. exfalso. apply Hne, Hiff. lia.
Qed.

Lemma token_changed_iff_needs_update_witness :
  JDict [ ("strongs", JStr "G26"); ("strong_def", JStr "love") ]
  ≠ JDict [ ("strongs", JStr "G26"); ("strong_def", JStr "") ]
  ↔ needs_update example_definitions
      (JDict [ ("strongs", JStr "G26"); ("strong_def", JStr "") ]) = true.
Proof.
  apply (token_changed_iff_needs_update
           example_verses example_definitions example_verses_after
           1 1 {[ KStr "G9999" ]} 0 0).
  - vm_compute. reflexivity.
  - reflexivity.
  - reflexivity.
Defined.

Lemma dict_set_absent k v d :
  dict_get k d = None → dict_set k v d = d ++ [(k, v)].
Proof.
  induction d as [| [k' v'] rest IH]; simpl; [done |].
  destruct (String.eqb k k'); [done |]. intros H. by rewrite IH.
Qed.

(** X7. Where the definition is written: a token that had a [strong_def]
    keeps its fields in their order; a token that had none is either
    untouched or gets ["strong_def"], holding a definition string, as its
    last field. *)
Theorem strong_def_written_in_place
    verses defs verses' u n m i j fields :
  update_strong_definitions verses defs = inr (verses', u, n, m) →
  token_at verses i j = Some (JDict fields) →
  ∃ fields',
    token_at verses' i j = Some (JDict fields')
    ∧ (is_Some (dict_get "strong_def" fields) → fields'.*1 = fields.*1)
    ∧ (dict_get "strong_def" fields = None →
       fields' = fields
       ∨ ∃ new_def, fields' = fields ++ [("strong_def", JStr new_def)]).
Proof.
  intros (ds & Hrun & _)%update_returns Htok.
  destruct (token_at_outcome _ _ _ _ _ _ _ Hrun Htok)
    as (fields0 & token' & d & [= <-] & Htok' & Ho & _).
  destruct Ho as [Ht | k nd Ht Hk Hd Hn | k nd Ht Hk Hd Hn | k Ht Hk Hd];
    try (exists fields; split; [done | split; [done | by left]]).
  eexists. split; [done |]. split.
  - by apply dict_set_keys.
  - intros Hnone. right. exists nd. by apply dict_set_absent.
Qed.

Lemma strong_def_written_in_place_witness :
  ∃ fields',
    token_at plain_verses_after 1 0 = Some (JDict fields')
    ∧ (is_Some (dict_get "strong_def" [ ("strongs", JStr "G26") ]) →
       fields'.*1 = [ ("strongs", JStr "G26") ].*1)
    ∧ (dict_get "strong_def" [ ("strongs", JStr "G26") ] = None →
       fields' = [ ("strongs", JStr "G26") ]
       ∨ ∃ new_def,
           fields' = [ ("strongs", JStr "G26") ]
                     ++ [("strong_def", JStr new_def)]).
Proof.
  apply (strong_def_written_in_place
           plain_verses example_definitions plain_verses_after 1 0 ∅ 1 0).
  - vm_compute. reflexivity.
  - reflexivity.
Defined.

(** ** The definitions the merge reads *)

Lemma each_transfer {A} (body : A → run A) defs1 defs2 xs xs' ds :
  (∀ x x' d, x ∈ xs → body x (initial_store defs1) = (inr x', d) →
             body x (initial_store defs2)
             = (inr x', with_definitions defs2 d)) →
  each body defs1 xs xs' ds →
  each body defs2 xs xs' (with_definitions defs2 ds).
Proof.
  intros Hbody H. induction H as [| x x' d xs xs' ds Hx Hxs IH].
  - constructor.
  - change (with_definitions defs2 (d ⊕ ds))
      with (with_definitions defs2 d ⊕ with_definitions defs2 ds).
    constructor.
    + apply Hbody; [apply list_elem_of_here | done].
    + apply IH. intros y y' dy Hy. apply Hbody. by apply list_elem_of_further.
Qed.

Lemma defs_get_agree defs1 defs2 strongs_num k :
  (∀ s, strongs_num = JStr s → defs1 !! s = defs2 !! s) →
  hash_key strongs_num = inr k →
  defs_get k defs1 = defs_get k defs2.
Proof.
  intros Hagree. destruct strongs_num; simpl; intros [= <-]; simpl; eauto.
Qed.

Lemma token_outcome_transfer defs1 defs2 fields token' d :
  (∀ s, get_strongs fields = JStr s → defs1 !! s = defs2 !! s) →
  token_outcome defs1 fields token' d →
  token_outcome defs2 fields token' (with_definitions defs2 d).
Proof.
  intros Hagree Ho.
  destruct Ho as [Ht | k nd Ht Hk Hd Hn | k nd Ht Hk Hd Hn | k Ht Hk Hd];
    try rewrite (defs_get_agree _ _ _ _ Hagree Hk) in Hd.
  - by apply skipped.
  - by eapply up_to_date.
  - by eapply updated.
  - by eapply not_found.
Qed.

Lemma merge_item_of_verse item verse_data' st d :
  merge_verse item.2 st = (inr verse_data', d) →
  merge_item item st = (inr (item.1, verse_data'), d).
Proof. intros H. unfold merge_item, bind. by rewrite H. Qed.

Lemma merge_verse_untouched defs1 defs2 verse_data verse_data' d :
  tokens_of verse_data = [] →
  merge_verse verse_data (initial_store defs1) = (inr verse_data', d) →
  merge_verse verse_data (initial_store defs2)
  = (inr verse_data, with_definitions defs2 (initial_store defs1)).
Proof.
  destruct verse_data as [| | | s | l | fields]; simpl; try done.
  - by destruct (str_contains "tokens" s).
  - by destruct (list_contains_str "tokens" l).
  - destruct (dict_get "tokens" fields) as [tokens |] eqn:Hget; [| done].
    destruct tokens as [| | | s | l | entries]; simpl; try done.
    + unfold bind. simpl. destruct (String.eqb s ""); [| done].
      intros _ _. unfold ret. by rewrite (dict_set_id _ _ _ Hget).
    + intros -> _. unfold bind, ret. simpl.
      by rewrite (dict_set_id _ _ _ Hget).
    + unfold bind. simpl. destruct entries; [| done].
      intros _ _. unfold ret. by rewrite (dict_set_id _ _ _ Hget).
Qed.

(** X8. The merge reads the definitions map only at the [strongs] strings of
    the tokens: with another map that agrees with the first on those
    strings, the run returns the same collection, counts and missing set. *)
Theorem only_referenced_definitions_matter verses defs1 defs2 result :
  (∀ fields s,
     JDict fields ∈ all_tokens verses → get_strongs fields = JStr s →
     defs1 !! s = defs2 !! s) →
  update_strong_definitions verses defs1 = inr result →
  update_strong_definitions verses defs2 = inr result.
Proof.
  intros Hagree. destruct result as [[[verses' u] n] m].
  intros (ds & Hrun & -> & -> & ->)%update_returns.
  apply update_returns. exists (with_definitions defs2 ds).
  split; [| done]. revert Hrun. apply each_transfer.
  intros item item' d Hin Hitem.
  pose proof Hitem as [Hk Hv]%merge_item_initial.
  destruct item as [verse_ref verse_data], item' as [verse_ref' verse_data'].
  simpl in *. subst verse_ref'.
  inversion Hv as [vd Hnone | fields items items' d' Hget Hitems]; subst.
  - apply bind_returns in Hitem as (vd & st1 & Hvd & _). simpl in Hvd.
    apply merge_item_of_verse. simpl.
    by rewrite (merge_verse_untouched _ defs2 _ _ _ Hnone Hvd).
  - apply merge_item_of_verse. simpl.
    apply (merge_verse_walked defs2 fields items); [done |].
    revert Hitems. apply each_transfer.
    intros token token' dt Htin (tf & -> & Ho)%merge_token_initial.
    apply merge_token_outcome_initial.
    apply (token_outcome_transfer defs1); [| done].
    intros s Hs. apply (Hagree tf s); [| done].
    apply elem_of_all_tokens. exists (verse_ref, JDict fields).
    split; [done |]. simpl. by rewrite Hget.
Qed.

Lemma only_referenced_definitions_matter_witness :
  update_strong_definitions example_verses smaller_definitions
  = inr (example_verses_after, 1, 1, {[ KStr "G9999" ]}).
Proof.
  apply (only_referenced_definitions_matter
           example_verses example_definitions smaller_definitions).
  - intros fields s Hin Hs. cbn in Hin.
    apply elem_of_cons in Hin as [[= ->] | Hin].
    { injection Hs as <-. vm_compute. reflexivity. }
    apply elem_of_cons in Hin as [[= ->] | Hin].
    { injection Hs as <-. vm_compute. reflexivity. }
    by apply elem_of_nil in Hin.
  - vm_compute. reflexivity.
Defined.

(** ** Collections in parts *)

Lemma each_app {A} (body : A → run A) defs xs ys xs' ys' d1 d2 :
  (∀ x r d, body x (initial_store defs) = (r, d) →
            strongs_definitions d = defs) →
  each body defs xs xs' d1 →
  each body defs ys ys' d2 →
  each body defs (xs ++ ys) (xs' ++ ys') (d1 ⊕ d2).
Proof.
  intros Hdefs H1 H2. induction H1 as [| x x' d xs xs' ds Hx Hxs IH]; simpl.
  - rewrite initial_store_add; [done |].
    destruct H2 as [| y y' dy ys ys' ds Hy _]; [done |].
    simpl. by eapply Hdefs.
  - rewrite store_add_assoc. by constructor.
Qed.

(** X9. The merge of a collection made of two parts is made of the merges
    of the parts: the collections in a row, the counts added, the missing
    sets united. *)
Theorem merge_of_parts verses1 verses2 defs out1 u1 n1 m1 out2 u2 n2 m2 :
  update_strong_definitions verses1 defs = inr (out1, u1, n1, m1) →
  update_strong_definitions verses2 defs = inr (out2, u2, n2, m2) →
  update_strong_definitions (verses1 ++ verses2) defs
  = inr (out1 ++ out2, u1 + u2, n1 + n2, m1 ∪ m2).
Proof.
  intros (d1 & H1 & -> & -> & ->)%update_returns
         (d2 & H2 & -> & -> & ->)%update_returns.
  apply update_returns. exists (d1 ⊕ d2). split.
  - apply each_app; [| done | done].
    intros item r d. apply body_definitions, local_merge_item.
  - simpl. repeat split. apply (comm_L (∪)).
Qed.

Lemma merge_of_parts_witness :
  update_strong_definitions (example_verses ++ repeated_verses)
                            example_definitions
  = inr (example_verses_after ++ repeated_verses_after, 1 + 1, 1 + 2,
         {[ KStr "G9999" ]} ∪ {[ KStr "G9999" ]}).
Proof.
  apply merge_of_parts.
  - vm_compute. reflexivity.
  - vm_compute. reflexivity.
Defined.

(** ** The order of [sorted] *)

Lemma ascii_compare_refl a : Ascii.compare a a = Eq.
Proof. unfold Ascii.compare. apply N.compare_refl. Qed.

Lemma string_compare_refl s : String.compare s s = Eq.
Proof.
  induction s as [| a s IH]; simpl; [done |]. by rewrite ascii_compare_refl.
Qed.

Lemma string_compare_lt_trans s t r :
  String.compare s t = Lt → String.compare t r = Lt → String.compare s r = Lt.
Proof.
  revert t r. induction s as [| a s IH]; intros [| b t] [| c r]; simpl;
    try done.
  destruct (Ascii.compare a b) eqn:Hab; try done;
    destruct (Ascii.compare b c) eqn:Hbc; try done.
  - apply Ascii.compare_eq_iff in Hab, Hbc. subst.
    rewrite ascii_compare_refl. apply IH.
  - apply Ascii.compare_eq_iff in Hab. subst. by rewrite Hbc.
  - apply Ascii.compare_eq_iff in Hbc. subst. by rewrite Hab.
  - unfold Ascii.compare in *.
    rewrite N.compare_lt_iff in Hab, Hbc.
    assert (Ascii.N_of_ascii a < Ascii.N_of_ascii c)%N as Hac by lia.
    apply N.compare_lt_iff in Hac. by rewrite Hac.
Qed.

Lemma str_le_cases s t :
  str_le s t ↔ String.compare s t = Lt ∨ s = t.
Proof.
  unfold str_le, String.leb. split.
  - destruct (String.compare s t) eqn:Hc; try done.
    + right. by apply String.compare_eq_iff.
    + by left.
  - intros [-> | ->]; [done |]. by rewrite string_compare_refl.
Qed.

Global Instance str_le_total : Total str_le.
Proof. intros s t. apply String.leb_total. Qed.

Global Instance str_le_trans : Transitive str_le.
Proof.
  intros s t r. rewrite !str_le_cases.
  intros [Hst | ->] [Htr | ->]; eauto using string_compare_lt_trans.
Qed.

Global Instance str_le_antisym : AntiSymm (=) str_le.
Proof. intros s t. apply String.leb_antisym. Qed.

Lemma strings_of_Some keys strs :
  strings_of keys = Some strs → keys = KStr <$> strs.
Proof.
  revert strs. induction keys as [| [| n | s] rest IH]; intros strs; simpl;
    try done.
  - by intros [= <-].
  - destruct (strings_of rest) as [strs0 |]; simpl; [| done].
    intros [= <-]. simpl. f_equal. by apply IH.
Qed.

Lemma ints_of_Some keys nums :
  ints_of keys = Some nums → keys = KInt <$> nums.
Proof.
  revert nums. induction keys as [| [| n | s] rest IH]; intros nums; simpl;
    try done.
  - by intros [= <-].
  - destruct (ints_of rest) as [nums0 |]; simpl; [| done].
    intros [= <-]. simpl. f_equal. by apply IH.
Qed.

Lemma strings_of_None keys :
  strings_of keys = None → ∃ k, k ∈ keys ∧ ∀ s, k ≠ KStr s.
Proof.
  induction keys as [| k rest IH]; simpl; [done |].
  destruct k as [| n | s].
  - intros _. exists KNone. split; [apply list_elem_of_here | done].
  - intros _. exists (KInt n). split; [apply list_elem_of_here | done].
  - destruct (strings_of rest); simpl; [done |]. intros _.
    destruct (IH eq_refl) as (k & Hin & Hk).
    exists k. split; [by apply list_elem_of_further | done].
Qed.

Lemma ints_of_None keys :
  ints_of keys = None → ∃ k, k ∈ keys ∧ ∀ n, k ≠ KInt n.
Proof.
  induction keys as [| k rest IH]; simpl; [done |].
  destruct k as [| n | s].
  - intros _. exists KNone. split; [apply list_elem_of_here | done].
  - destruct (ints_of rest); simpl; [done |]. intros _.
    destruct (IH eq_refl) as (k & Hin & Hk).
    exists k. split; [by apply list_elem_of_further | done].
  - intros _. exists (KStr s). split; [apply list_elem_of_here | done].
Qed.

Lemma strings_of_fmap strs : strings_of (KStr <$> strs) = Some strs.
Proof. induction strs as [| s strs IH]; csimpl; [done |]. by rewrite IH. Qed.

Lemma ints_of_fmap nums : ints_of (KInt <$> nums) = Some nums.
Proof. induction nums as [| n nums IH]; csimpl; [done |]. by rewrite IH. Qed.

(** What [sorted] returns is the keys of the set, each once, in ascending
    order. *)
Lemma sorted_spec m keys :
  sorted m = inr keys →
  keys ≡ₚ elements m ∧ StronglySorted key_le keys.
Proof.
  unfold sorted. destruct (elements m) as [| k1 [| k2 rest]] eqn:He.
  - intros [= <-]. split; [done | constructor].
  - intros [= <-]. split; [done | by repeat constructor].
  - destruct (strings_of (k1 :: k2 :: rest)) as [strs |] eqn:Hs.
    + intros [= <-]. rewrite (strings_of_Some _ _ Hs). split.
      * by rewrite merge_sort_Permutation.
      * apply (StronglySorted_fmap _ str_le); [done |].
        apply StronglySorted_merge_sort; apply _.
    + destruct (ints_of (k1 :: k2 :: rest)) as [nums |] eqn:Hi; [| done].
      intros [= <-]. rewrite (ints_of_Some _ _ Hi). split.
      * by rewrite merge_sort_Permutation.
      * apply (StronglySorted_fmap _ Z.le); [done |].
        apply StronglySorted_merge_sort; apply _.
Qed.

(** When [sorted] raises: exactly when the set holds two keys it cannot
    compare. *)
Lemma sorted_raises m :
  (∃ e, sorted m = inl e) ↔
  ∃ k1 k2, k1 ∈ m ∧ k2 ∈ m ∧ k1 ≠ k2 ∧ ¬ comparable k1 k2.
Proof.
  unfold sorted. pose proof (NoDup_elements m) as Hnd.
  assert (Hin : ∀ k, k ∈ m ↔ k ∈ elements m)
    by (intros k; by rewrite elem_of_elements).
  destruct (elements m) as [| k1 [| k2 rest]] eqn:He.
  - split; [by intros [? ?] |].
    intros (a & b & Ha%Hin & _). by apply elem_of_nil in Ha.
  - split; [by intros [? ?] |].
    intros (a & b & Ha%Hin & Hb%Hin & Hne & _).
    apply list_elem_of_singleton in Ha, Hb. congruence.
  - destruct (strings_of (k1 :: k2 :: rest)) as [strs |] eqn:Hs.
    { split; [by intros [? ?] |].
      intros (a & b & Ha%Hin & Hb%Hin & _ & Hc).
      rewrite (strings_of_Some _ _ Hs) in Ha, Hb.
      apply list_elem_of_fmap in Ha as (s & -> & _).
      apply list_elem_of_fmap in Hb as (t & -> & _). by destruct Hc. }
    destruct (ints_of (k1 :: k2 :: rest)) as [nums |] eqn:Hi.
    { split; [by intros [? ?] |].
      intros (a & b & Ha%Hin & Hb%Hin & _ & Hc).
      rewrite (ints_of_Some _ _ Hi) in Ha, Hb.
      apply list_elem_of_fmap in Ha as (x & -> & _).
      apply list_elem_of_fmap in Hb as (y & -> & _). by destruct Hc. }
    split; [intros _ | by eauto].
    apply strings_of_None in Hs as (a & Ha & Hstr).
    apply ints_of_None in Hi as (b & Hb & Hint).
    destruct a as [| x | s]; [| | by destruct (Hstr s)].
    + assert (∃ c, c ∈ k1 :: k2 :: rest ∧ c ≠ KNone) as (c & Hc & Hne).
      { apply NoDup_cons in Hnd as [Hk1 _].
        destruct (decide (k1 = KNone)) as [-> | Hk].
        - exists k2. split; [apply list_elem_of_further, list_elem_of_here |].
          intros ->. apply Hk1, list_elem_of_here.
        - exists k1. split; [apply list_elem_of_here | done]. }
      exists KNone, c. repeat split; try (by apply Hin); [done |].
      by intros [].
    + exists (KInt x), b. repeat split; try (by apply Hin).
      * intros <-. by destruct (Hint x).
      * destruct b; try (by intros []). by destruct (Hint n).
Qed.

(** ** The summary *)

Lemma sorted_error m e : sorted m = inl e → e = TypeError.
Proof.
  unfold sorted. destruct (elements m) as [| k1 [| k2 rest]]; try done.
  destruct (strings_of _); [done |]. destruct (ints_of _); [done |].
  by intros [= <-].
Qed.

Lemma listed_keys_app out1 out2 :
  listed_keys (out1 ++ out2) = listed_keys out1 ++ listed_keys out2.
Proof. apply omap_app. Qed.

Lemma listed_keys_items keys : listed_keys (Line_missing_item <$> keys) = keys.
Proof.
  unfold listed_keys. induction keys as [| k keys IH]; csimpl; [done |].
  by rewrite IH.
Qed.

Lemma size_elements (m : gset key) : size m = length (elements m).
Proof. done. Qed.

(** The lines of a summary that was printed to its end. *)
Lemma report_lines u n m out :
  report u n m = (out, None) →
  ∃ keys,
    keys ≡ₚ elements m
    ∧ StronglySorted key_le keys
    ∧ listed_keys out = take 20 keys
    ∧ last out = Some Line_done
    ∧ ∀ c, Line_more c ∈ out ↔ 20 < size m ∧ c = size m - 20.
Proof.
  unfold report. destruct (decide (m = ∅)) as [-> | Hne].
  - intros [= <-]. exists []. rewrite elements_empty, size_empty.
    split; [done |]. split; [constructor |]. split; [done |].
    split; [done |]. intros c. split; [| lia].
    intros Hin. repeat (apply elem_of_cons in Hin as [[=] | Hin]).
    by apply elem_of_nil in Hin.
  - destruct (sorted m) as [e | keys] eqn:Hs; [done |].
    intros [= <-]. exists keys.
    destruct (sorted_spec _ _ Hs) as [Hperm Hsorted].
    split; [done |]. split; [done |]. split; [| split].
    + match goal with
      | |- listed_keys (_ :: _ :: _ :: _ :: _ :: ?rest) = _ =>
          change (listed_keys rest = take 20 keys)
      end.
      rewrite !listed_keys_app, listed_keys_items.
      destruct (decide (20 < size m)); simpl; by rewrite app_nil_r.
    + match goal with
      | |- last (?a :: ?b :: ?c :: ?d :: ?e :: ?X ++ ?Y ++ [?z]) = _ =>
          rewrite (app_assoc X Y [z]);
          change (last (([a; b; c; d; e] ++ X ++ Y) ++ [z]) = Some z)
      end.
      apply last_snoc.
    + intros c. split.
      * intros Hin.
        repeat (apply elem_of_cons in Hin as [[=] | Hin]).
        apply elem_of_app in Hin as [Hin | Hin].
        { by apply list_elem_of_fmap in Hin as (? & [=] & _). }
        destruct (decide (20 < size m)).
        -- apply elem_of_cons in Hin as [[= ->] | Hin]; [done |].
           apply elem_of_cons in Hin as [[=] | Hin].
           by apply elem_of_nil in Hin.
        -- apply elem_of_cons in Hin as [[=] | Hin].
           by apply elem_of_nil in Hin.
      * intros [Hlt ->].
        do 5 apply list_elem_of_further. apply elem_of_app. right.
        apply elem_of_app. left.
        destruct (decide (20 < size m)); [apply list_elem_of_here | done].
Qed.

(** X13. In a summary printed to its end, the keys listed are the first
    twenty keys of the missing set in ascending order, or all of them when
    there are fewer: each is a key of the set, none is listed twice, every
    key left out comes after every key listed, and a line giving the number
    of keys left out is printed exactly when there are more than twenty. *)
Theorem summary_lists_first_twenty u n m out :
  report u n m = (out, None) →
  length (listed_keys out) = 20 `min` size m
  ∧ NoDup (listed_keys out)
  ∧ (∀ k, k ∈ listed_keys out → k ∈ m)
  ∧ StronglySorted key_le (listed_keys out)
  ∧ (∀ k k', k ∈ m → k ∉ listed_keys out → k' ∈ listed_keys out →
             key_le k' k)
  ∧ (∀ c, Line_more c ∈ out ↔ 20 < size m ∧ c = size m - 20).
Proof.
  intros (keys & Hperm & Hsorted & -> & _ & Hmore)%report_lines.
  assert (Hnd : NoDup keys) by (rewrite Hperm; apply NoDup_elements).
  rewrite <- (take_drop 20 keys) in Hsorted, Hnd.
  split; [| split; [| split; [| split; [| split]]]].
  - by rewrite length_take, size_elements, Hperm.
  - by apply NoDup_app in Hnd as [? _].
  - intros k Hin%subseteq_take. apply elem_of_elements.
    by rewrite <- Hperm.
  - by eapply StronglySorted_app_1_l.
  - intros k k' Hk Hnot Hk'.
    apply (StronglySorted_app_1_elem_of _ _ _ _ _ Hsorted Hk').
    apply elem_of_elements in Hk. rewrite <- Hperm in Hk.
    rewrite <- (take_drop 20 keys) in Hk.
    by apply elem_of_app in Hk as [Hk | Hk].
  - done.
Qed.

Lemma summary_lists_first_twenty_witness :
  length (listed_keys (report 0 3 three_missing).1) = 20 `min` size three_missing
  ∧ NoDup (listed_keys (report 0 3 three_missing).1)
  ∧ (∀ k, k ∈ listed_keys (report 0 3 three_missing).1 → k ∈ three_missing)
  ∧ StronglySorted key_le (listed_keys (report 0 3 three_missing).1)
  ∧ (∀ k k', k ∈ three_missing →
             k ∉ listed_keys (report 0 3 three_missing).1 →
             k' ∈ listed_keys (report 0 3 three_missing).1 →
             key_le k' k)
  ∧ (∀ c, Line_more c ∈ (report 0 3 three_missing).1
          ↔ 20 < size three_missing ∧ c = size three_missing - 20).
Proof.
  apply (summary_lists_first_twenty 0 3 three_missing).
  vm_compute. reflexivity.
Defined.

(** X14. The summary raises exactly when the missing set holds two keys that
    [sorted] cannot compare (a string and a number); the exception is a
    [TypeError], raised after the header of the missing section. *)
Theorem summary_raises_on_mixed_keys u n m :
  ((report u n m).2 = Some TypeError ↔
   ∃ k1 k2, k1 ∈ m ∧ k2 ∈ m ∧ k1 ≠ k2 ∧ ¬ comparable k1 k2)
  ∧ ((report u n m).2 = None ∨ (report u n m).2 = Some TypeError)
  ∧ ((report u n m).2 = Some TypeError →
     last (report u n m).1 = Some (Line_missing_header (size m))).
Proof.
  pose proof (sorted_raises m) as Hr. unfold report.
  destruct (decide (m = ∅)) as [-> | Hne]; simpl.
  - split; [| split; [by left | done]]. split; [done |].
    intros (k1 & k2 & Hin & _). set_solver.
  - destruct (sorted m) as [e | keys] eqn:Hs; simpl.
    + apply sorted_error in Hs as Heq. subst e.
      split; [| split; [by right | done]].
      split; [intros _; apply Hr; eauto | done].
    + split; [| split; [by left | done]]. split; [done |].
      intros Hmixed. apply Hr in Hmixed as [e He]. done.
Qed.

(** ** The script *)

Lemma update_again verses defs verses' u n m :
  update_strong_definitions verses defs = inr (verses', u, n, m) →
  update_strong_definitions verses' defs = inr (verses', 0, n, m).
Proof.
  intros (ds & Hrun & -> & -> & ->)%update_returns.
  apply update_returns. exists (second_run ds). split; [| done].
  by apply (each_again _ _ verses _ _ (merge_item_again defs)).
Qed.

Lemma update_of_refused verses defs :
  verses_ok verses = false →
  ∃ e, update_strong_definitions verses defs = inl e.
Proof.
  intros Hno.
  destruct (update_strong_definitions verses defs)
    as [e | [[[verses' u] n] m]] eqn:Hupd; [by eauto |].
  apply update_returns in Hupd as (ds & H & _).
  assert (verses_ok verses = true) by (apply (merge_verses_ok defs); eauto).
  congruence.
Qed.

Lemma update_of_returned verses defs verses' u n m :
  update_strong_definitions verses defs = inr (verses', u, n, m) →
  verses_ok verses = true.
Proof.
  intros (ds & H & _)%update_returns. apply (merge_verses_ok defs). eauto.
Qed.

Lemma report_raised_same u n u' n' m : (report u n m).2 = (report u' n' m).2.
Proof.
  unfold report. destruct (decide (m = ∅)); [done |].
  by destruct (sorted m).
Qed.

Lemma report_shows_counts u n m :
  Line_definitions_updated u ∈ (report u n m).1
  ∧ Line_not_found n ∈ (report u n m).1.
Proof.
  unfold report. destruct (decide (m = ∅)); [| destruct (sorted m)]; simpl;
    split; repeat constructor.
Qed.

(** *** Strings the output file can take *)

Lemma forallb_dict_set (P : string * json → bool) k v d :
  forallb P d = true → P (k, v) = true → forallb P (dict_set k v d) = true.
Proof.
  intros Hd Hkv. induction d as [| [k' v'] rest IH]; simpl in *.
  - by rewrite Hkv.
  - apply andb_true_iff in Hd as [Hhd Hrest].
    destruct (String.eqb k k'); simpl.
    + by rewrite Hkv, Hrest.
    + by rewrite Hhd, IH.
Qed.

Lemma forallb_dict_get (P : string * json → bool) k v d :
  forallb P d = true → dict_get k d = Some v → P (k, v) = true.
Proof.
  intros Hd. induction d as [| [k' v'] rest IH]; simpl in *; [done |].
  apply andb_true_iff in Hd as [Hhd Hrest].
  destruct (String.eqb k k') eqn:E.
  - apply String.eqb_eq in E. subst k'. by intros [= <-].
  - by apply IH.
Qed.

Lemma each_forallb {A} (body : A → run A) (P : A → bool) defs xs xs' ds :
  (∀ x x' d, body x (initial_store defs) = (inr x', d) →
             P x = true → P x' = true) →
  each body defs xs xs' ds →
  forallb P xs = true → forallb P xs' = true.
Proof.
  intros Hbody. induction 1 as [| x x' d xs xs' ds Hx Hxs IH]; [done |].
  simpl. intros [Hhd Hrest]%andb_true_iff.
  by rewrite (Hbody _ _ _ Hx Hhd), IH.
Qed.

Section encodable_definitions.
Context (defs : gmap string string).
Hypothesis defs_encodable :
  ∀ s new_def, defs !! s = Some new_def → no_lone_surrogate new_def = true.

Lemma token_outcome_encodable fields token' d :
  token_outcome defs fields token' d →
  encodable (JDict fields) = true → encodable token' = true.
Proof.
  destruct 1 as [Ht | k nd Ht Hk Hd Hn | k nd Ht Hk Hd Hn | k Ht Hk Hd];
    try done.
  intros Hfields. simpl in *. apply forallb_dict_set; [done |].
  destruct k as [| z | s]; simpl in Hd; try done.
  simpl. by apply (defs_encodable s).
Qed.

Lemma merge_token_encodable token token' d :
  merge_token token (initial_store defs) = (inr token', d) →
  encodable token = true → encodable token' = true.
Proof.
  intros (fields & -> & Ho)%merge_token_initial.
  by eapply token_outcome_encodable.
Qed.

Lemma merge_item_encodable item item' d :
  merge_item item (initial_store defs) = (inr item', d) →
  no_lone_surrogate item.1 && encodable item.2 = true →
  no_lone_surrogate item'.1 && encodable item'.2 = true.
Proof.
  intros [Hk Hv]%merge_item_initial [Hkey Hval]%andb_true_iff.
  rewrite Hk, Hkey. simpl.
  inversion Hv as [vd Hnone | fields items items' d' Hget Hitems]; subst;
    [congruence |].
  rewrite <- H in Hval. simpl in Hval |- *.
  apply forallb_dict_set; [done |]. simpl.
  pose proof (forallb_dict_get _ _ _ _ Hval Hget) as Hitems_ok.
  simpl in Hitems_ok.
  by apply (each_forallb _ encodable _ _ _ _ merge_token_encodable Hitems).
Qed.

(** The merge writes definition strings only: a collection the output file
    can take stays one when the definitions are such strings. *)
Lemma update_encodable verses verses' u n m :
  update_strong_definitions verses defs = inr (verses', u, n, m) →
  encodable_doc verses = true → encodable_doc verses' = true.
Proof.
  intros (ds & Hrun & _)%update_returns. unfold encodable_doc. simpl.
  by apply (each_forallb _ _ _ _ _ _ merge_item_encodable Hrun).
Qed.
End encodable_definitions.

(** *** The paths of [main] after the merge *)

(** What [main] does once both files are loaded, the merge returned and the
    collection was written. *)
Lemma main_saved fs defs verses verses' u n m :
  strongs_cleaned_json fs = Holds defs →
  verses_json fs = Holds verses →
  update_strong_definitions verses defs = inr (verses', u, n, m) →
  verses_disk fs = Writes →
  encodable_doc verses' = true →
  main fs
  = Outcome (Files (Holds defs) (Holds verses') Writes)
            ([ Line_loading_definitions;
               Line_loaded_definitions (size defs); Line_loading_verses;
               Line_loaded_verses (length verses); Line_updating;
               Line_saving ] ++ (report u n m).1)
            (Raised <$> (report u n m).2).
Proof.
  intros Hd Hv Hupd Hdisk Henc. unfold main, save_json_file.
  rewrite Hd, Hv, Hdisk. simpl. rewrite Hupd, Henc.
  by destruct (report u n m).
Qed.

(** What [main] does when the collection cannot be written. *)
Lemma main_not_saved fs defs verses verses' u n m f e :
  strongs_cleaned_json fs = Holds defs →
  verses_json fs = Holds verses →
  update_strong_definitions verses defs = inr (verses', u, n, m) →
  save_json_file (verses_disk fs) (verses_json fs) verses' = (f, Some e) →
  main fs
  = Outcome (Files (Holds defs) f (verses_disk fs))
            [ Line_loading_definitions;
              Line_loaded_definitions (size defs); Line_loading_verses;
              Line_loaded_verses (length verses); Line_updating;
              Line_saving ]
            (Some e).
Proof.
  intros Hd Hv Hupd Hsave. unfold main. rewrite Hd. simpl. rewrite Hv. simpl.
  rewrite Hupd. rewrite Hv in Hsave. by rewrite Hsave.
Qed.

(** X10. When an input file is absent or is no JSON, or the merge raises,
    [main] ends with an error, has written no file and has not reached the
    saving step. *)
Theorem main_failure_writes_nothing fs :
  ready fs = false →
  files_after (main fs) = fs
  ∧ is_Some (raised (main fs))
  ∧ Line_saving ∉ stdout (main fs).
Proof.
  destruct fs as [[| | defs] verses_file d]; unfold ready, main; simpl;
    try (intros _; split; [done |]; split; [by eexists |];
         intros Hin; repeat (apply elem_of_cons in Hin as [[=] | Hin]);
         by apply elem_of_nil in Hin).
  destruct verses_file as [| | verses]; simpl;
    try (intros _; split; [done |]; split; [by eexists |];
         intros Hin; repeat (apply elem_of_cons in Hin as [[=] | Hin]);
         by apply elem_of_nil in Hin).
  intros [e He]%(update_of_refused _ defs). rewrite He.
  split; [done |]. split; [by eexists |].
  intros Hin. repeat (apply elem_of_cons in Hin as [[=] | Hin]).
  by apply elem_of_nil in Hin.
Qed.

Lemma main_failure_writes_nothing_witness :
  files_after (main files_without_verses) = files_without_verses
  ∧ is_Some (raised (main files_without_verses))
  ∧ Line_saving ∉ stdout (main files_without_verses).
Proof.
  apply (main_failure_writes_nothing files_without_verses). reflexivity.
Defined.

(** X11. When both files load and the merge returns, [main] reaches the
    saving step and leaves the definitions file as it was.  If the disk
    takes the text and every string of the merged collection can be encoded,
    the verses file holds the merged collection, also when the summary
    raises afterwards, and only the summary can still end the run with an
    error.  Otherwise the run ends at the saving step, with no summary:
    with [OSError] and the verses file as it was when it cannot be opened,
    with [OSError] and an invalid verses file when the disk fails once it
    is open, with [UnicodeEncodeError] and an invalid verses file when a
    string holds a lone surrogate. *)
Theorem main_saves_merged_verses fs defs verses verses' u n m :
  strongs_cleaned_json fs = Holds defs →
  verses_json fs = Holds verses →
  update_strong_definitions verses defs = inr (verses', u, n, m) →
  strongs_cleaned_json (files_after (main fs)) = Holds defs
  ∧ Line_saving ∈ stdout (main fs)
  ∧ (verses_disk fs = Writes → encodable_doc verses' = true →
     verses_json (files_after (main fs)) = Holds verses'
     ∧ raised (main fs) = Raised <$> (report u n m).2)
  ∧ (verses_disk fs = Writes → encodable_doc verses' = false →
     verses_json (files_after (main fs)) = Invalid
     ∧ raised (main fs) = Some UnicodeEncodeError
     ∧ last (stdout (main fs)) = Some Line_saving)
  ∧ (verses_disk fs = Fails_midway →
     verses_json (files_after (main fs)) = Invalid
     ∧ raised (main fs) = Some OSError
     ∧ last (stdout (main fs)) = Some Line_saving)
  ∧ (verses_disk fs = Refuses →
     verses_json (files_after (main fs)) = Holds verses
     ∧ raised (main fs) = Some OSError
     ∧ last (stdout (main fs)) = Some Line_saving).
Proof.
  intros Hd Hv Hupd.
  destruct (verses_disk fs) eqn:Hdisk.
  - destruct (encodable_doc verses') eqn:Henc.
    + rewrite (main_saved _ _ _ _ _ _ _ Hd Hv Hupd Hdisk Henc). simpl.
      split; [done |]. split.
      { do 5 apply list_elem_of_further. apply list_elem_of_here. }
      repeat split; done.
    + rewrite (main_not_saved _ _ _ _ _ _ _ Invalid UnicodeEncodeError
                 Hd Hv Hupd)
        by (unfold save_json_file; by rewrite Hdisk, Henc).
      simpl. split; [done |]. split.
      { do 5 apply list_elem_of_further. apply list_elem_of_here. }
      repeat split; done.
  - rewrite (main_not_saved _ _ _ _ _ _ _ (Holds verses) OSError Hd Hv Hupd)
      by (unfold save_json_file; by rewrite Hdisk, Hv).
    simpl. split; [done |]. split.
    { do 5 apply list_elem_of_further. apply list_elem_of_here. }
    repeat split; done.
  - rewrite (main_not_saved _ _ _ _ _ _ _ Invalid OSError Hd Hv Hupd)
      by (unfold save_json_file; by rewrite Hdisk).
    simpl. split; [done |]. split.
    { do 5 apply list_elem_of_further. apply list_elem_of_here. }
    repeat split; done.
Qed.

Lemma main_saves_merged_verses_witness :
  strongs_cleaned_json (files_after (main surrogate_files))
  = Holds example_definitions
  ∧ Line_saving ∈ stdout (main surrogate_files)
  ∧ (verses_disk surrogate_files = Writes →
     encodable_doc surrogate_verses = true →
     verses_json (files_after (main surrogate_files)) = Holds surrogate_verses
     ∧ raised (main surrogate_files) = Raised <$> (report 0 0 ∅).2)
  ∧ (verses_disk surrogate_files = Writes →
     encodable_doc surrogate_verses = false →
     verses_json (files_after (main surrogate_files)) = Invalid
     ∧ raised (main surrogate_files) = Some UnicodeEncodeError
     ∧ last (stdout (main surrogate_files)) = Some Line_saving)
  ∧ (verses_disk surrogate_files = Fails_midway →
     verses_json (files_after (main surrogate_files)) = Invalid
     ∧ raised (main surrogate_files) = Some OSError
     ∧ last (stdout (main surrogate_files)) = Some Line_saving)
  ∧ (verses_disk surrogate_files = Refuses →
     verses_json (files_after (main surrogate_files)) = Holds surrogate_verses
     ∧ raised (main surrogate_files) = Some OSError
     ∧ last (stdout (main surrogate_files)) = Some Line_saving).
Proof.
  apply (main_saves_merged_verses surrogate_files example_definitions
                                  surrogate_verses).
  - reflexivity.
  - reflexivity.
  - vm_compute. reflexivity.
Defined.

(** X12. Running the script again on the files it left, when the first run
    wrote the verses file (it did not end with [OSError] or
    [UnicodeEncodeError]): the files stay as they are, the summary shows
    zero definitions updated, and the run ends the way the first one did. *)
Theorem main_again_changes_nothing fs :
  ready fs = true →
  raised (main fs) ≠ Some OSError →
  raised (main fs) ≠ Some UnicodeEncodeError →
  files_after (main (files_after (main fs))) = files_after (main fs)
  ∧ Line_definitions_updated 0 ∈ stdout (main (files_after (main fs)))
  ∧ raised (main (files_after (main fs))) = raised (main fs).
Proof.
  destruct fs as [[| | defs] [| | verses] d]; unfold ready; simpl; try done.
  intros (verses' & u & n & m & Hupd)%(update_of_accepted _ defs).
  destruct d.
  - destruct (encodable_doc verses') eqn:Henc.
    + intros _ _.
      rewrite (main_saved (Files (Holds defs) (Holds verses) Writes)
                 _ _ _ _ _ _ eq_refl eq_refl Hupd eq_refl Henc). simpl.
      rewrite (main_saved (Files (Holds defs) (Holds verses') Writes)
                 _ _ _ _ _ _ eq_refl eq_refl
                 (update_again _ _ _ _ _ _ Hupd) eq_refl Henc). simpl.
      split; [done |]. split.
      * do 6 apply list_elem_of_further. apply report_shows_counts.
      * by rewrite (report_raised_same 0 n u n m).
    + rewrite (main_not_saved (Files (Holds defs) (Holds verses) Writes)
                 _ _ _ _ _ _ Invalid UnicodeEncodeError eq_refl eq_refl Hupd)
        by (unfold save_json_file; simpl; by rewrite Henc).
      simpl. by intros _ [].
  - rewrite (main_not_saved (Files (Holds defs) (Holds verses) Refuses)
               _ _ _ _ _ _ (Holds verses) OSError eq_refl eq_refl Hupd)
      by done.
    simpl. by intros [].
  - rewrite (main_not_saved (Files (Holds defs) (Holds verses) Fails_midway)
               _ _ _ _ _ _ Invalid OSError eq_refl eq_refl Hupd)
      by done.
    simpl. by intros [].
Qed.

Lemma main_again_changes_nothing_witness :
  files_after (main (files_after (main example_files)))
  = files_after (main example_files)
  ∧ Line_definitions_updated 0
    ∈ stdout (main (files_after (main example_files)))
  ∧ raised (main (files_after (main example_files)))
    = raised (main example_files).
Proof.
  apply (main_again_changes_nothing example_files).
  - reflexivity.
  - vm_compute. discriminate.
  - vm_compute. discriminate.
Defined.

Lemma missing_key_strongs defs fields k :
  missing_key defs (JDict fields) = Some k →
  truthy (get_strongs fields) = true ∧ hash_key (get_strongs fields) = inr k.
Proof.
  simpl. destruct (truthy (get_strongs fields)); [| done].
  destruct (hash_key (get_strongs fields)) as [e | k']; [done |].
  destruct (defs_get k' defs); [done |]. by intros [= <-].
Qed.

(** X15. When both files load, the verses are accepted by the merge, every
    truthy [strongs] of a token is a string, no string of the verses and no
    definition holds a lone surrogate, and the disk takes the text, [main]
    runs to its end: no error, the verses file written, and the last line
    printed is the closing one. *)
Theorem main_completes_on_string_strongs fs defs verses :
  strongs_cleaned_json fs = Holds defs →
  verses_json fs = Holds verses →
  verses_disk fs = Writes →
  verses_ok verses = true →
  (∀ fields,
     JDict fields ∈ all_tokens verses →
     truthy (get_strongs fields) = true →
     ∃ s, get_strongs fields = JStr s) →
  encodable_doc verses = true →
  (∀ s new_def, defs !! s = Some new_def → no_lone_surrogate new_def = true) →
  raised (main fs) = None
  ∧ last (stdout (main fs)) = Some Line_done
  ∧ ∃ verses', verses_json (files_after (main fs)) = Holds verses'.
Proof.
  intros Hd Hv Hdisk (verses' & u & n & m & Hupd)%(update_of_accepted _ defs)
         Hstr Henc Hdefs.
  pose proof (update_encodable defs Hdefs _ _ _ _ _ Hupd Henc) as Henc'.
  rewrite (main_saved _ _ _ _ _ _ _ Hd Hv Hupd Hdisk Henc'). simpl.
  assert (Hkeys : ∀ k, k ∈ m → ∃ s, k = KStr s).
  { apply update_returns in Hupd as (ds & Hrun & _ & _ & ->).
    intros k (token & Hin & Hkey)%(missing_strongs_spec _ _ _ _ _ Hrun).
    destruct token as [| | | | | fields]; try done.
    apply missing_key_strongs in Hkey as [Ht Hk].
    destruct (Hstr fields Hin Ht) as [s Hs]. rewrite Hs in Hk.
    exists s. by injection Hk as <-. }
  assert (Hnone : (report u n m).2 = None).
  { unfold report. destruct (decide (m = ∅)); [done |].
    destruct (sorted m) as [e | keys] eqn:Hs; [| done]. exfalso.
    assert (∃ e, sorted m = inl e) as (k1 & k2 & H1 & H2 & _ & Hc)%sorted_raises
      by eauto.
    apply Hkeys in H1 as [s1 ->]. apply Hkeys in H2 as [s2 ->].
    by apply Hc. }
  rewrite Hnone. split; [done |]. split; [| by eauto].
  destruct (report u n m) as [out e] eqn:Hr. simpl in *. subst e.
  apply report_lines in Hr as (keys & _ & _ & _ & Hlast & _).
  destruct out as [| line out]; [done |].
  change (last ([ Line_loading_definitions;
                  Line_loaded_definitions (size defs); Line_loading_verses;
                  Line_loaded_verses (length verses); Line_updating;
                  Line_saving ] ++ line :: out) = Some Line_done).
  by rewrite last_app, Hlast.
Qed.

Lemma main_completes_on_string_strongs_witness :
  raised (main example_files) = None
  ∧ last (stdout (main example_files)) = Some Line_done
  ∧ ∃ verses', verses_json (files_after (main example_files)) = Holds verses'.
Proof.
  apply (main_completes_on_string_strongs
           example_files example_definitions example_verses).
  - reflexivity.
  - reflexivity.
  - reflexivity.
  - reflexivity.
  - intros fields Hin Ht. cbn in Hin.
    apply elem_of_cons in Hin as [[= ->] | Hin]; [by exists "G26" |].
    apply elem_of_cons in Hin as [[= ->] | Hin]; [by exists "G9999" |].
    by apply elem_of_nil in Hin.
  - reflexivity.
  - intros s new_def Hdef. unfold example_definitions in Hdef.
    apply lookup_insert_Some in Hdef as [[_ <-] | [_ Hdef]]; [done |].
    apply lookup_singleton_Some in Hdef as [_ <-]. done.
Defined.
